(** * moon7-async: the counting semaphore, the mutex and the task pool

    A shallow embedding of [src/semaphore.ts], [src/mutex.ts] and
    [src/task-pool.ts], and the properties of their specification.

    JavaScript runs these classes on one thread: a piece of code between two
    [await]s runs to completion.  The embedding therefore has two layers.

    - Module [Sem]: the semaphore object with the closures it creates, as
      state-passing functions.  One function per method, one call per
      function.
    - Module [Async]: the callers.  A world holds one semaphore, the
      invocations of [use] on it and the order in which their promises
      settled; an action is one run-to-completion piece of code, and a run is
      a list of actions.  The program around the semaphore is not modelled:
      every interleaving of its calls is a run.
    - Module [Inv]: what holds between two actions.
    - Modules [Batch] and [Pool]: several releases in a row, and the worlds
      reached through [use] only, as a mutex or a task pool reaches them.
    - Modules [Retry], [Timeout] and [Lift]: [expBackoff], [withRetry],
      [withTimeout] and [lift] of [src/async.ts].

    Numbers: the constructor receives a JavaScript [number]; once it has
    accepted it the capacity is an integer and [count] only ever moves by
    one, so both are kept in [Z] (doubles are exact on integers below 2^53,
    and the counters of a program stay far below). *)

From Stdlib Require Import QArith Qabs Qround.
From stdpp Require Import base list numbers strings.

Local Open Scope Z_scope.

(** ** JavaScript numbers, as far as the constructor looks at them *)

Module JS.

(** A [number] is a finite value, [NaN] or an infinity.  The finite doubles
    are rationals. *)
Inductive number : Type :=
| Finite (q : Q)
| NaN
| PosInfinity
| NegInfinity.

(** [Number.isInteger(x)] *)
Definition Number_isInteger (x : number) : bool :=
  match x with
  | Finite q => (Qnum q mod Zpos (Qden q) =? 0)
  | _ => false
  end.

(** [x <= 0]; every comparison with [NaN] is false *)
Definition le_zero (x : number) : bool :=
  match x with
  | Finite q => (Qnum q <=? 0)
  | NegInfinity => true
  | NaN | PosInfinity => false
  end.

(** The integer an integral number stands for. *)
Definition to_Z (x : number) : Z :=
  match x with
  | Finite q => Qnum q / Zpos (Qden q)
  | _ => 0
  end.

Definition of_Z (n : Z) : number := Finite (inject_Z n).

(** [new Error(message)] *)
Inductive Error : Type := mkError (message : string).

(** "a positive integer", in the words of the error message *)
Definition positive_integer (x : number) : Prop :=
  ∃ n : Z, 0 < n ∧ ∃ q, x = Finite q ∧ Qeq q (inject_Z n).

End JS.

(** ** The semaphore *)

Module Sem.
Import JS.

(** A [Release] closure and a future are heap objects; each is named by
    its rank of creation on this semaphore. *)
Definition Release : Type := nat.
Definition Future : Type := nat.

(** A queue entry is the closure
    [() => { this.count++; resolve(this.release()); }]; the only thing it
    captures besides [this] is the [resolve] of its future. *)
Definition Callback : Type := Future.

(** The object and what its closures own.
    - [capacity], [count], [queue]: the three fields of the class;
    - [released]: the [released] variable of every closure returned by
      the private [release()], in creation order;
    - [futures]: how many futures [acquire] has created;
    - [resolved]: the calls [resolve(token)] made so far, oldest first:
      the order in which the waiters are resumed. *)
Record Semaphore : Type := mkSemaphore {
  capacity : Z;
  count : Z;
  queue : list Callback;
  released : list bool;
  futures : nat;
  resolved : list (Future * Release);
}.

Definition set_count (s : Semaphore) (c : Z) : Semaphore :=
  mkSemaphore (capacity s) c (queue s) (released s) (futures s) (resolved s).
Definition set_queue (s : Semaphore) (q : list Callback) : Semaphore :=
  mkSemaphore (capacity s) (count s) q (released s) (futures s) (resolved s).
Definition set_released (s : Semaphore) (r : list bool) : Semaphore :=
  mkSemaphore (capacity s) (count s) (queue s) r (futures s) (resolved s).
Definition set_futures (s : Semaphore) (n : nat) : Semaphore :=
  mkSemaphore (capacity s) (count s) (queue s) (released s) n (resolved s).
Definition set_resolved (s : Semaphore) (r : list (Future * Release)) : Semaphore :=
  mkSemaphore (capacity s) (count s) (queue s) (released s) (futures s) r.

Definition InvalidCapacity : Error :=
  mkError "Semaphore capacity must be a positive integer".

(** [constructor(capacity)] *)
Definition new (capacity : number) : Error + Semaphore :=
  if le_zero capacity || negb (Number_isInteger capacity)
  then inl InvalidCapacity
  else inr (mkSemaphore (to_Z capacity) 0 [] [] 0 []).

(** [get used()], [get permits()].  The subtraction is the one of doubles as
    long as the capacity is at most 2^53; past that it would round. *)
Definition used (s : Semaphore) : Z := count s.
Definition permits (s : Semaphore) : Z := capacity s - count s.

(** The private [release()]: [let released = false; return () => ...].
    It allocates a closure and returns it. *)
Definition release (s : Semaphore) : Release * Semaphore :=
  (length (released s), set_released s (released s ++ [false])).

(** [tryAcquire()] *)
Definition tryAcquire (s : Semaphore) : option Release * Semaphore :=
  if count s <? capacity s then
    let s := set_count s (count s + 1) in
    let '(r, s) := release s in
    (Some r, s)
  else (None, s).

(** What [await acquire()] waits for: the promise of an [async] function
    that returned a token, or the promise of [future()]. *)
Inductive Promise : Type :=
| Fulfilled (r : Release)
| Deferred (f : Future).

(** [const [promise, resolve] = future<Release>()] *)
Definition future (s : Semaphore) : Future * Semaphore :=
  (futures s, set_futures s (S (futures s))).

(** [acquire()] *)
Definition acquire (s : Semaphore) : Promise * Semaphore :=
  if count s <? capacity s then
    let s := set_count s (count s + 1) in
    let '(r, s) := release s in
    (Fulfilled r, s)
  else
    let '(f, s) := future s in
    let s := set_queue s (queue s ++ [f]) in
    (Deferred f, s).

(** The value a future was resolved with, if any. *)
Fixpoint value_of (f : Future) (l : list (Future * Release)) : option Release :=
  match l with
  | [] => None
  | (g, r) :: l => if Nat.eqb f g then Some r else value_of f l
  end.

(** [resolve(token)]: a promise is resolved once, later calls are ignored *)
Definition resolve (f : Future) (r : Release) (s : Semaphore) : Semaphore :=
  match value_of f (resolved s) with
  | Some _ => s
  | None => set_resolved s (resolved s ++ [(f, r)])
  end.

(** Running a queue entry: [this.count++; resolve(this.release())] *)
Definition run_callback (next : Callback) (s : Semaphore) : Semaphore :=
  let s := set_count s (count s + 1) in
  let '(r, s) := release s in
  resolve next r s.

(** Calling the closure [r] returned by [release()].  [None]: there is no
    such closure (no program holds a reference to it). *)
Definition call (r : Release) (s : Semaphore) : option (bool * Semaphore) :=
  match released s !! r with
  | None => None
  | Some flag =>
      if flag || (count s <=? 0) then Some (false, s)
      else
        let s := set_released s (<[r := true]> (released s)) in
        let s := set_count s (count s - 1) in
        let s :=
          if (0 <? length (queue s))%nat && (count s <? capacity s) then
            match queue s with
            | next :: rest => run_callback next (set_queue s rest)
            | [] => s
            end
          else s in
        Some (true, s)
  end.

(** The closures whose [released] is still false: the outstanding tokens. *)
Fixpoint unreleased_from (i : nat) (flags : list bool) : list Release :=
  match flags with
  | [] => []
  | b :: flags => (if b then [] else [i]) ++ unreleased_from (S i) flags
  end.

Definition outstanding (s : Semaphore) : list Release :=
  unreleased_from 0 (released s).

End Sem.

(** ** The callers: [use], the mutex and the task pool *)

Module Async.
Import JS Sem.

Section Callers.
(** [T]: what an operation returns; [E]: what it throws; [F]: the
    operations themselves.  What an operation does is not looked into:
    when and how its promise settles is the choice of the run. *)
Context {T E F : Type}.

Inductive Outcome : Type :=
| Returned (v : T)
| Thrown (e : E).

(** Where an invocation of [use(fn)] stands:
    [const release = await this.acquire();]
    [try { return await fn(); } finally { release(); }] *)
Inductive Phase : Type :=
| Acquiring (p : Promise)       (* suspended at [await this.acquire()] *)
| InBody (release : Release)    (* [fn()] was called and is awaited *)
| Completed (release : Release) (* [finally] ran, the promise settled *).

Record Invocation : Type := mkInvocation {
  fn : F;
  phase : Phase;
}.

(** One semaphore, the invocations of [use] on it (an invocation is named
    by its rank), and the promises of [use] that settled, oldest first. *)
Record World : Type := mkWorld {
  sem : Semaphore;
  calls : list Invocation;
  settled : list (nat * Outcome);
}.

Definition set_sem (w : World) (s : Semaphore) : World :=
  mkWorld s (calls w) (settled w).

Definition start (s : Semaphore) : World := mkWorld s [] [].

(** The token an awaited [acquire()] promise delivers, once it can. *)
Definition awaited (s : Semaphore) (p : Promise) : option Release :=
  match p with
  | Fulfilled r => Some r
  | Deferred f => value_of f (resolved s)
  end.

(** The token in the local variable [release] of an invocation. *)
Definition token (s : Semaphore) (ph : Phase) : option Release :=
  match ph with
  | Acquiring p => awaited s p
  | InBody r => Some r
  | Completed r => Some r
  end.

(** The tokens that only [use] can reach. *)
Definition private (w : World) : list Release :=
  omap (λ i, token (sem w) (phase i)) (calls w).

(** The tokens of the invocations that are inside their body. *)
Definition body_token (i : Invocation) : option Release :=
  match phase i with
  | InBody r => Some r
  | _ => None
  end.

Definition inside (w : World) : list Release := omap body_token (calls w).

(** [use(fn)], up to its first [await]: [this.acquire()] runs at once. *)
Definition use_call (f : F) (w : World) : nat * World :=
  let '(p, s) := acquire (sem w) in
  (length (calls w),
   mkWorld s (calls w ++ [mkInvocation f (Acquiring p)]) (settled w)).

(** [use] resumes with the token and calls [fn()]. *)
Definition use_resume (k : nat) (w : World) : option World :=
  match calls w !! k with
  | Some (mkInvocation f (Acquiring p)) =>
      match awaited (sem w) p with
      | Some r =>
          Some (mkWorld (sem w) (<[k := mkInvocation f (InBody r)]> (calls w))
                  (settled w))
      | None => None
      end
  | _ => None
  end.

(** [fn()] settled with [o]: [finally { release(); }] runs, then the
    promise of [use] settles with [o]. *)
Definition use_finish (k : nat) (o : Outcome) (w : World) : option World :=
  match calls w !! k with
  | Some (mkInvocation f (InBody r)) =>
      match call r (sem w) with
      | Some (_, s) =>
          Some (mkWorld s (<[k := mkInvocation f (Completed r)]> (calls w))
                  (settled w ++ [(k, o)]))
      | None => None
      end
  | _ => None
  end.

(** One run-to-completion piece of code.  The first three are the
    program calling the semaphore directly; it can only call the tokens
    it was given. *)
Inductive Action : Type :=
| TryAcquire
| Acquire
| Call (r : Release)
| Use (f : F)
| Resume (k : nat)
| Settle (k : nat) (o : Outcome).

Definition step (a : Action) (w : World) : option World :=
  match a with
  | TryAcquire => Some (set_sem w (tryAcquire (sem w)).2)
  | Acquire => Some (set_sem w (acquire (sem w)).2)
  | Call r =>
      if bool_decide (r ∈ private w) then None
      else match call r (sem w) with
           | Some (_, s) => Some (set_sem w s)
           | None => None
           end
  | Use f => Some (use_call f w).2
  | Resume k => use_resume k w
  | Settle k o => use_finish k o w
  end.

Fixpoint run (acts : list Action) (w : World) : option World :=
  match acts with
  | [] => Some w
  | a :: acts =>
      match step a w with
      | Some w => run acts w
      | None => None
      end
  end.

(** The future an action puts in the queue, if it puts one. *)
Definition enqueues (a : Action) (w : World) : option Future :=
  match a with
  | Acquire | Use _ =>
      match (acquire (sem w)).1 with
      | Deferred f => Some f
      | Fulfilled _ => None
      end
  | _ => None
  end.

(** The futures a run puts in the queue, in the order of the run. *)
Fixpoint enqueued (acts : list Action) (w : World) : list Future :=
  match acts with
  | [] => []
  | a :: acts =>
      match step a w with
      | Some w' => option_list (enqueues a w) ++ enqueued acts w'
      | None => []
      end
  end.

(** The futures resolved so far, in the order of the calls of [resolve]. *)
Definition resumed (w : World) : list Future := (resolved (sem w)).*1.

(** *** TaskPool *)

(** [get tasks()], [get concurrency()] *)
Definition tasks (w : World) : Z := used (sem w).
Definition concurrency (w : World) : Z := capacity (sem w).

(** [submit(task)]: [return this.semaphore.use(task)] *)
Definition submit (task : F) (w : World) : nat * World := use_call task w.

(** [tasks.map((task) => this.submit(task))]: the calls happen in the
    order of the list, before anything else runs. *)
Fixpoint submit_each (tasks : list F) (w : World) : list nat * World :=
  match tasks with
  | [] => ([], w)
  | task :: tasks =>
      let '(p, w) := submit task w in
      let '(ps, w) := submit_each tasks w in
      (p :: ps, w)
  end.

(** [Promise.all], the built-in: one slot per promise of the list, in
    the order of the list; a slot is filled once; when no slot is empty
    the result is fulfilled with the slots; the first rejection of a
    promise of the list rejects the result; a settled result stays. *)
Inductive Settlement : Type :=
| Waiting
| AllFulfilled (vs : list T)
| AllRejected (e : E).

Record All : Type := mkAll {
  slots : list (option T);
  result : Settlement;
}.

Definition settle_once (cur new : Settlement) : Settlement :=
  match cur with
  | Waiting => new
  | _ => cur
  end.

Definition complete (sl : list (option T)) (cur : Settlement) : Settlement :=
  match mapM id sl with
  | Some vs => settle_once cur (AllFulfilled vs)
  | None => cur
  end.

Definition all_start (ps : list nat) : All :=
  let sl := (λ _, None) <$> ps in
  mkAll sl (complete sl Waiting).

Definition fill (k : nat) (v : T) (p : nat) (slot : option T) : option T :=
  match slot with
  | None => if Nat.eqb p k then Some v else None
  | Some _ => slot
  end.

Definition all_react (ps : list nat) (a : All) (ev : nat * Outcome) : All :=
  match ev with
  | (k, Returned v) =>
      let sl := zip_with (fill k v) ps (slots a) in
      mkAll sl (complete sl (result a))
  | (k, Thrown e) =>
      if bool_decide (k ∈ ps)
      then mkAll (slots a) (settle_once (result a) (AllRejected e))
      else a
  end.

Definition Promise_all (ps : list nat) (log : list (nat * Outcome)) : Settlement :=
  result (foldl (all_react ps) (all_start ps) log).

(** The value the promise [p] of the list was fulfilled with. *)
Fixpoint first_value (p : nat) (log : list (nat * Outcome)) : option T :=
  match log with
  | [] => None
  | (k, Returned v) :: log => if Nat.eqb p k then Some v else first_value p log
  | (_, Thrown _) :: log => first_value p log
  end.

(** [submitAll(tasks)]: the calls made now, and what the returned promise
    is once the promises of [use] have settled as [settled w] says. *)
Definition submitAll (tasks : list F) (w : World) : list nat * World :=
  submit_each tasks w.

Definition submitAll_result (ps : list nat) (w : World) : Settlement :=
  Promise_all ps (settled w).

End Callers.

Arguments Outcome : clear implicits.
Arguments Invocation : clear implicits.
Arguments World : clear implicits.
Arguments Action : clear implicits.
Arguments Settlement : clear implicits.
Arguments All : clear implicits.

(** *** Mutex: [private semaphore = new Semaphore(1)] *)
Definition Mutex_new : Error + Semaphore := Sem.new (of_Z 1).

(** *** TaskPool: [this.semaphore = new Semaphore(concurrency)] *)
Definition TaskPool_new (concurrency : number) : Error + Semaphore :=
  Sem.new concurrency.

End Async.

(** ** The invariants *)

Module Inv.
Import Sem Async.

(** What holds of a semaphore between two calls. *)
Record wf (s : Semaphore) : Prop := mk_wf {
  wf_capacity : 1 ≤ capacity s;
  wf_bounds : 0 ≤ count s ≤ capacity s;
  wf_tokens : count s = Z.of_nat (length (outstanding s));
  wf_full : queue s ≠ [] → count s = capacity s;
  wf_fifo : (resolved s).*1 ++ queue s = seq 0 (futures s);
  wf_granted : ∀ f r, (f, r) ∈ resolved s → (r < length (released s))%nat;
}.

(** What a call of a token does to a well-formed semaphore. *)
Inductive call_effect (r : Release) (s : Semaphore) : bool → Semaphore → Prop :=
| call_again :
    released s !! r = Some true →
    call_effect r s false s
| call_free :
    released s !! r = Some false →
    queue s = [] →
    call_effect r s true
      (mkSemaphore (capacity s) (count s - 1) []
         (<[r := true]> (released s)) (futures s) (resolved s))
| call_handoff (f : Future) (q : list Callback) :
    released s !! r = Some false →
    queue s = f :: q →
    value_of f (resolved s) = None →
    call_effect r s true
      (mkSemaphore (capacity s) (count s) q
         (<[r := true]> (released s) ++ [false]) (futures s)
         (resolved s ++ [(f, length (released s))])).

(** How one call changes the closures and the futures; [r0] is the token
    that was called, if one was. *)
Record evolves (r0 : option Release) (s s' : Semaphore) : Prop := mk_evolves {
  ev_alloc : (length (released s) ≤ length (released s'))%nat;
  ev_flags : ∀ r, released s !! r = Some false → r0 ≠ Some r →
             released s' !! r = Some false;
  ev_sticky : ∀ r, released s !! r = Some true → released s' !! r = Some true;
  ev_futures : (futures s ≤ futures s')%nat;
  ev_resolved :
    resolved s' = resolved s ∨
    ∃ f, resolved s' = resolved s ++ [(f, length (released s))] ∧
         value_of f (resolved s) = None ∧
         released s' !! length (released s) = Some false;
}.

Section World_invariant.
Context {T E F : Type}.

(** An invocation that has not run its [finally] yet. *)
Definition live (ph : Phase) : Prop :=
  match ph with
  | Completed _ => False
  | _ => True
  end.

(** What holds of a world between two actions: the token of an
    invocation exists, is unreleased until [finally] ran, and is in the
    hands of this invocation only; so is the future it waits for. *)
Record winv (w : World T E F) : Prop := mk_winv {
  winv_sem : wf (sem w);
  winv_held : ∀ k i r, calls w !! k = Some i →
              token (sem w) (phase i) = Some r →
              (r < length (released (sem w)))%nat;
  winv_live : ∀ k i r, calls w !! k = Some i →
              token (sem w) (phase i) = Some r → live (phase i) →
              released (sem w) !! r = Some false;
  winv_own : ∀ k1 k2 i1 i2 r,
             calls w !! k1 = Some i1 → calls w !! k2 = Some i2 →
             token (sem w) (phase i1) = Some r →
             token (sem w) (phase i2) = Some r → k1 = k2;
  winv_wait : ∀ k1 k2 i1 i2 f,
              calls w !! k1 = Some i1 → calls w !! k2 = Some i2 →
              phase i1 = Acquiring (Deferred f) →
              phase i2 = Acquiring (Deferred f) → k1 = k2;
  winv_future : ∀ k i f, calls w !! k = Some i →
                phase i = Acquiring (Deferred f) →
                (f < futures (sem w))%nat;
  winv_settled : NoDup (settled w).*1;
  winv_done : ∀ k o, (k, o) ∈ settled w →
              ∃ f r, calls w !! k = Some (mkInvocation f (Completed r));
}.

End World_invariant.

End Inv.

(** ** Sentences of the specification, as they read *)

Module Stated.
Import JS Sem Async.

Definition in_bounds (s : Semaphore) : Prop := 0 ≤ used s ≤ capacity s.

(** "The first invocation of a token decrements [used] by exactly 1 and
    returns true", read on the values of [used] before and after the
    invocation. *)
Definition first_call_decrements : Prop :=
  ∀ (c : number) (s0 : Semaphore) (acts : list (Action unit unit unit))
    (w : World unit unit unit) (r : Release),
    Sem.new c = inr s0 → run acts (start s0) = Some w →
    released (sem w) !! r = Some false →
    ∃ s', call r (sem w) = Some (true, s') ∧ used s' = used (sem w) - 1.


(** No promise of the list [ps] has rejected in [log]. *)
Definition no_throw {T E : Type} (ps : list nat) (log : list (nat * Outcome T E)) : Prop :=
  ∀ p e, p ∈ ps → (p, Thrown e) ∉ log.

End Stated.

(** ** Several tokens called in a row *)

Module Batch.
Import Sem.

(** [rs.map(release => release())]: the tokens of [rs] called one after the
    other, with what each call returned. *)
Fixpoint call_each (rs : list Release) (s : Semaphore) : option (list bool * Semaphore) :=
  match rs with
  | [] => Some ([], s)
  | r :: rs =>
      match call r s with
      | Some (b, s) =>
          match call_each rs s with
          | Some (bs, s) => Some (b :: bs, s)
          | None => None
          end
      | None => None
      end
  end.

(** The futures are resolved once each, and with tokens of their own. *)
Definition granted_once (s : Semaphore) : Prop :=
  NoDup (resolved s).*1 ∧ NoDup (resolved s).*2.

End Batch.

(** ** A semaphore reached through [use] only *)

Module Pool.
Import Sem Async Inv.

Section Pool.
Context {T E F : Type}.

(** The actions of a program that holds no token itself: the semaphore of a
    task pool is private, all that reaches it is [submit], that is [use]. *)
Definition through_use (a : Action T E F) : bool :=
  match a with
  | Use _ | Resume _ | Settle _ _ => true
  | TryAcquire | Acquire | Call _ => false
  end.

Definition has_token (s : Semaphore) (i : Invocation F) : Prop :=
  is_Some (token s (phase i)).

Definition waiting_for (f : Future) : Phase := Acquiring (Deferred f).

Definition finished (i : Invocation F) : Prop := ∃ r, phase i = Completed r.

(** What holds of such a world between two actions: an outstanding token
    is in the hands of an invocation that has not ended; the invocations
    were given their tokens in the order of the calls, the first [n] have
    one and the others are the queue, in its order. *)
Record pool_inv (w : World T E F) : Prop := mk_pool_inv {
  pool_winv : winv w;
  pool_holders : ∀ r, released (sem w) !! r = Some false →
                 ∃ k i, calls w !! k = Some i ∧
                        token (sem w) (phase i) = Some r ∧ live (phase i);
  pool_split : ∃ n : nat,
    (n + length (queue (sem w)) = length (calls w))%nat ∧
    (∀ k i, calls w !! k = Some i → (k < n)%nat → has_token (sem w) i) ∧
    (∀ j f, queue (sem w) !! j = Some f →
            ∃ i, calls w !! (n + j)%nat = Some i ∧ phase i = waiting_for f);
}.

(** The token an invocation holds: it was given one and [finally] has not
    run. *)
Definition held (s : Semaphore) (i : Invocation F) : option Release :=
  match phase i with
  | Acquiring p => awaited s p
  | InBody r => Some r
  | Completed _ => None
  end.

End Pool.

End Pool.

(** ** [expBackoff] and [withRetry] *)

Module Retry.
Import JS.

(** [Math.pow(2, i)] for a natural [i]: a double up to 2^1023, [Infinity]
    beyond. *)
Definition pow2 (i : nat) : number :=
  if (i <? 1024)%nat then Finite (inject_Z (2 ^ Z.of_nat i)) else PosInfinity.

Definition sign (x : number) : Z :=
  match x with
  | Finite q => Z.sgn (Qnum q)
  | PosInfinity => 1
  | NegInfinity => -1
  | NaN => 0
  end.

(** [p * x] for [p] a power of two or [Infinity]: the product of a double
    by a power of two is exact, unless it reaches 2^1024 and overflows. *)
Definition times (p x : number) : number :=
  match p, x with
  | NaN, _ | _, NaN => NaN
  | Finite a, Finite b =>
      let c := (a * b)%Q in
      if Qle_bool (inject_Z (2 ^ 1024)) (Qabs c)
      then (if 0 <? Qnum c then PosInfinity else NegInfinity)
      else Finite c
  | _, _ =>
      if sign p * sign x =? 1 then PosInfinity
      else if sign p * sign x =? -1 then NegInfinity
      else NaN
  end.

(** [Math.floor(x)] *)
Definition Math_floor (x : number) : number :=
  match x with
  | Finite q => Finite (inject_Z (Qfloor q))
  | _ => x
  end.

(** [Math.max(x, y)] *)
Definition Math_max (x y : number) : number :=
  match x, y with
  | NaN, _ | _, NaN => NaN
  | PosInfinity, _ | _, PosInfinity => PosInfinity
  | NegInfinity, z | z, NegInfinity => z
  | Finite a, Finite b => if Qle_bool a b then Finite b else Finite a
  end.

(** The wait function: given the attempt [i], the duration to wait. *)
Definition Wait : Type := nat → number.

Definition MINIMUM_RETRY_WAIT_TIME : number := of_Z 250.

(** [expBackoff(minRetryWaitTime)]; the attempt [i] is a loop counter. *)
Definition expBackoff (minRetryWaitTime : number) : Wait :=
  λ i,
    let backoff := Math_floor (times (pow2 i) minRetryWaitTime) in
    Math_max backoff minRetryWaitTime.



(** [i < tries] for the loop counter [i] *)
Definition lt_nat (i : nat) (tries : number) : bool :=
  match tries with
  | Finite q => Z.of_nat i * Zpos (Qden q) <? Qnum q
  | PosInfinity => true
  | NaN | NegInfinity => false
  end.

Section WithRetry.
(** [R]: what [fn] returns; [E]: what it throws.  [attempt i] is how the
    call number [i] of [fn(...args)] ends. *)
Context {R E : Type}.

(** [new RetryError(`Failed after ${tries} attempts`, lastError)]; the
    message is kept as the number it is made of; [None] is [undefined]. *)
Inductive RetryError : Type := mkRetryError (tries : number) (lastError : option E).

(** What the wrapped function does besides returning: it calls [fn] and it
    sleeps. *)
Inductive Effect : Type :=
| Called (i : nat)
| Slept (ms : number).

(** The loop of [withRetry], from the counter [i] on.  [fuel] bounds the
    number of rounds; [None]: the bound was reached. *)
Fixpoint retry_loop (fuel : nat) (attempt : nat → R + E) (tries : number) (wait : Wait)
    (i : nat) (lastError : option E) : option (list Effect * (R + RetryError)) :=
  match fuel with
  | O => None
  | S fuel =>
      if lt_nat i tries then
        match attempt i with
        | inl v => Some ([Called i], inl v)
        | inr ex =>
            match retry_loop fuel attempt tries wait (S i) (Some ex) with
            | Some (effects, out) => Some (Called i :: Slept (wait i) :: effects, out)
            | None => None
            end
        end
      else Some ([], inr (mkRetryError tries lastError))
  end.

(** [withRetry(fn, tries, wait)(...args)] *)
Definition withRetry (attempt : nat → R + E) (tries : number) (wait : option Wait)
    (fuel : nat) : option (list Effect * (R + RetryError)) :=
  let wait := default (expBackoff MINIMUM_RETRY_WAIT_TIME) wait in
  retry_loop fuel attempt tries wait 0 None.

(** A failed round: the call and the sleep that follows it. *)
Definition failed_round (wait : Wait) (i : nat) : list Effect :=
  [Called i; Slept (wait i)].

End WithRetry.

Arguments RetryError : clear implicits.

End Retry.

(** ** [withTimeout] and [lift] *)

Module Timeout.

Section WithTimeout.
(** [R]: what [asyncFn] resolves with; [E]: what it fails with. *)
Context {R E : Type}.

(** What the returned promise is rejected with. *)
Inductive Failure : Type :=
| TimeoutError
| Raised (error : E).

(** What can happen after the call: the timer callback runs, or the promise
    of [asyncFn] settles and [onPass] or [onFail] runs. *)
Inductive Event : Type :=
| TimerFires
| Passes (value : R)
| Fails (error : E).

(** The timer (set or not) and the returned promise. *)
Record State : Type := mkState {
  timer : bool;
  promise : option (R + Failure);
}.

(** [pass(value)], [fail(error)]: a promise settles once. *)
Definition settle (o : R + Failure) (st : State) : State :=
  match promise st with
  | Some _ => st
  | None => mkState (timer st) (Some o)
  end.

(** [clearTimeout(timerId)], and a timer that has fired is gone as well. *)
Definition clearTimeout (st : State) : State := mkState false (promise st).

(** The executor: [setTimeout], then [asyncFn(...args).then(onPass, onFail)].
    [thrown]: [asyncFn] threw before it returned a promise; the executor
    throws, which rejects the promise, and the timer stays set. *)
Definition start (thrown : option E) : State :=
  let st := mkState true None in
  match thrown with
  | Some e => settle (inr (Raised e)) st
  | None => st
  end.

(** One callback.  [None]: it cannot run (a timer that is not set). *)
Definition react (ev : Event) (st : State) : option State :=
  match ev with
  | TimerFires =>
      if timer st then Some (settle (inr TimeoutError) (clearTimeout st)) else None
  | Passes v => Some (settle (inl v) (clearTimeout st))
  | Fails e => Some (settle (inr (Raised e)) (clearTimeout st))
  end.

Fixpoint after (evs : list Event) (st : State) : option State :=
  match evs with
  | [] => Some st
  | ev :: evs =>
      match react ev st with
      | Some st => after evs st
      | None => None
      end
  end.

(** What a callback settles the promise with. *)
Definition outcome (ev : Event) : R + Failure :=
  match ev with
  | TimerFires => inr TimeoutError
  | Passes v => inl v
  | Fails e => inr (Raised e)
  end.

End WithTimeout.

Arguments Failure : clear implicits.
Arguments Event : clear implicits.
Arguments State : clear implicits.

End Timeout.

Module Lift.
Import Async.

Section Lift.
(** [T]: the values of the arguments; [E]: errors; [R]: what [fn] returns. *)
Context {T E R : Type}.




End Lift.

End Lift.

(** * Proofs *)

Import JS Sem Async Inv Stated.

(** ** Outstanding tokens *)

Section Outstanding.

Lemma elem_of_unreleased_from (i : nat) (flags : list bool) (t : nat) :
  t ∈ unreleased_from i flags ↔ ∃ j : nat, t = (i + j)%nat ∧ flags !! j = Some false.
Proof.
  revert i. induction flags as [|b flags IH]; intros i; simpl.
  - split; [by intros ?%elem_of_nil | by intros (j & _ & ?)].
  - rewrite elem_of_app, IH. split.
    + intros [Hb | (j & -> & Hj)].
      * destruct b; [by apply elem_of_nil in Hb |].
        apply list_elem_of_singleton in Hb as ->. exists 0%nat. split; [lia | done].
      * exists (S j). split; [lia | done].
    + intros ([|j] & -> & Hj); simpl in Hj.
      * left. injection Hj as ->. replace (i + 0)%nat with i by lia.
        by apply list_elem_of_singleton.
      * right. exists j. split; [lia | done].
Qed.

Lemma length_unreleased_snoc (i : nat) (flags : list bool) :
  length (unreleased_from i (flags ++ [false])) = S (length (unreleased_from i flags)).
Proof.
  revert i. induction flags as [|b flags IH]; intros i; simpl; [done |].
  rewrite !length_app, IH. unfold Release. lia.
Qed.

Lemma length_unreleased_insert (i : nat) (flags : list bool) (j : nat) :
  flags !! j = Some false →
  length (unreleased_from i flags)
  = S (length (unreleased_from i (<[j := true]> flags))).
Proof.
  revert i j. induction flags as [|b flags IH]; intros i [|j] Hj; simpl in *;
    try discriminate.
  - by injection Hj as ->.
  - rewrite !length_app. pose proof (IH (S i) j Hj). unfold Release in *. lia.
Qed.

Lemma NoDup_unreleased_from (i : nat) (flags : list bool) :
  NoDup (unreleased_from i flags).
Proof.
  revert i. induction flags as [|b flags IH]; intros i; simpl; [constructor |].
  destruct b; simpl; [apply IH |].
  constructor; [| apply IH].
  rewrite elem_of_unreleased_from. intros (j & ? & _). lia.
Qed.

Lemma elem_of_outstanding (s : Semaphore) (t : Release) :
  t ∈ outstanding s ↔ released s !! t = Some false.
Proof.
  unfold outstanding. rewrite elem_of_unreleased_from. split.
  - by intros (j & -> & ?).
  - intros ?. by exists t.
Qed.

End Outstanding.

Section Semaphore_facts.

Lemma value_of_None (f : Future) (l : list (Future * Release)) :
  value_of f l = None ↔ f ∉ l.*1.
Proof.
  induction l as [|[g r] l IH]; simpl.
  - split; [intros _ ?%elem_of_nil; done | done].
  - rewrite not_elem_of_cons. destruct (Nat.eqb_spec f g) as [->|Hne].
    + split; [done | by intros [? _]].
    + rewrite IH. split; [by intros ? | by intros [_ ?]].
Qed.

Lemma value_of_Some (f : Future) (l : list (Future * Release)) (r : Release) :
  value_of f l = Some r → (f, r) ∈ l.
Proof.
  induction l as [|[g r'] l IH]; simpl; [done |].
  destruct (Nat.eqb_spec f g) as [->|Hne].
  - intros [= ->]. apply list_elem_of_here.
  - intros ?. apply list_elem_of_further. auto.
Qed.

Lemma value_of_snoc (f g : Future) (r : Release) (l : list (Future * Release)) :
  value_of f (l ++ [(g, r)])
  = match value_of f l with
    | Some x => Some x
    | None => if Nat.eqb f g then Some r else None
    end.
Proof.
  induction l as [|[g' r'] l IH]; simpl; [done |].
  by destruct (Nat.eqb f g').
Qed.

Lemma new_wf (c : number) (s : Semaphore) : new c = inr s → wf s.
Proof.
  unfold new. destruct (le_zero c || negb (Number_isInteger c)) eqn:Hc; [done |].
  intros [= <-]. apply orb_false_elim in Hc as [Hle Hint].
  apply negb_false_iff in Hint.
  destruct c as [[n d]| | |]; simpl in *; try done.
  apply Z.leb_gt in Hle. apply Z.eqb_eq in Hint.
  assert (1 ≤ n `div` Z.pos d) as Hcap.
  { pose proof (Z.div_mod n (Z.pos d)) as Hdm. nia. }
  constructor; simpl; try done.
  - lia.
  - by intros ? ? ?%elem_of_nil.
Qed.

Lemma tryAcquire_wf (s : Semaphore) : wf s → wf (tryAcquire s).2.
Proof.
  intros [Hc Hb Ht Hf Hq Hg]. unfold tryAcquire.
  destruct (Z.ltb_spec (count s) (capacity s)); simpl; [| by constructor].
  constructor; simpl.
  - done.
  - lia.
  - unfold outstanding; simpl. rewrite length_unreleased_snoc.
    unfold outstanding in Ht. lia.
  - intros Hne. specialize (Hf Hne). lia.
  - done.
  - intros f r Hfr. rewrite length_app. specialize (Hg f r Hfr). simpl. lia.
Qed.

Lemma acquire_wf (s : Semaphore) : wf s → wf (acquire s).2.
Proof.
  intros [Hc Hb Ht Hf Hq Hg]. unfold acquire.
  destruct (Z.ltb_spec (count s) (capacity s)); simpl.
  - constructor; simpl.
    + done.
    + lia.
    + unfold outstanding; simpl. rewrite length_unreleased_snoc.
      unfold outstanding in Ht. lia.
    + intros Hne. specialize (Hf Hne). lia.
    + done.
    + intros f r Hfr. rewrite length_app. specialize (Hg f r Hfr). simpl. lia.
  - constructor; simpl; try done.
    + intros _. lia.
    + change (0%nat :: seq 1 (futures s)) with (seq 0 (S (futures s))).
      rewrite seq_S, <- Hq, <- app_assoc. done.
Qed.

Lemma call_cases (r : Release) (s s' : Semaphore) (b : bool) :
  wf s → call r s = Some (b, s') → call_effect r s b s'.
Proof.
  intros [Hc Hb Ht Hf Hq Hg]. unfold call.
  destruct (released s !! r) as [flag|] eqn:Hr; [| done].
  destruct flag; simpl.
  { intros [= <- <-]. by constructor. }
  assert (0 < count s) as Hpos.
  { apply elem_of_outstanding in Hr. destruct (outstanding s); [by apply elem_of_nil in Hr |].
    simpl in Ht. lia. }
  destruct (Z.leb_spec (count s) 0); [lia |].
  unfold set_count, set_released; simpl.
  destruct (queue s) as [|f q] eqn:Hqueue; simpl.
  - intros [= <- <-]. by apply call_free.
  - rewrite Hf by done.
    destruct (Z.ltb_spec (capacity s - 1) (capacity s)); [| lia].
    assert (value_of f (resolved s) = None) as Hnone.
    { apply value_of_None. intros Hin.
      pose proof (NoDup_seq 0 (futures s)) as Hnd. rewrite <- Hq in Hnd.
      apply NoDup_app in Hnd as (_ & Hdisj & _).
      apply (Hdisj f Hin). apply list_elem_of_here. }
    unfold run_callback, resolve; simpl. rewrite Hnone, length_insert.
    intros [= <- <-]. unfold set_resolved; simpl.
    replace (capacity s - 1 + 1) with (count s) by (rewrite Hf; [lia | done]).
    by apply call_handoff.
Qed.

Lemma call_wf (r : Release) (s s' : Semaphore) (b : bool) :
  wf s → call r s = Some (b, s') → wf s'.
Proof.
  intros Hwf Hcall. destruct (call_cases _ _ _ _ Hwf Hcall) as [Hr|Hr Hqueue|f q Hr Hqueue Hnone];
    [done | |]; destruct Hwf as [Hc Hb Ht Hf Hq Hg].
  - pose proof (length_unreleased_insert 0 _ _ Hr) as Hlen.
    unfold outstanding in Ht. constructor; simpl.
    + done.
    + lia.
    + unfold outstanding, Release in *; simpl. lia.
    + done.
    + by rewrite Hqueue in Hq.
    + intros f r' Hfr. rewrite length_insert. eauto.
  - pose proof (length_unreleased_insert 0 _ _ Hr) as Hlen.
    unfold outstanding in Ht. constructor; simpl.
    + done.
    + done.
    + unfold outstanding; simpl. rewrite length_unreleased_snoc.
      unfold Release in *. lia.
    + intros _. apply Hf. by rewrite Hqueue.
    + rewrite fmap_app, <- app_assoc. simpl. by rewrite <- Hqueue.
    + intros f' r' Hfr. rewrite length_app, length_insert. simpl.
      apply elem_of_app in Hfr as [Hfr|Hfr].
      * specialize (Hg _ _ Hfr). lia.
      * apply list_elem_of_singleton in Hfr as [= _ ->]. lia.
Qed.

End Semaphore_facts.

Section Evolution.

Lemma tryAcquire_evolves (s : Semaphore) : evolves None s (tryAcquire s).2.
Proof.
  unfold tryAcquire. destruct (count s <? capacity s); simpl.
  - constructor; simpl; [rewrite length_app; lia | | | lia | by left].
    + intros r Hr _. by apply lookup_app_l_Some.
    + intros r Hr. by apply lookup_app_l_Some.
  - constructor; auto.
Qed.

Lemma acquire_evolves (s : Semaphore) : evolves None s (acquire s).2.
Proof.
  unfold acquire. destruct (count s <? capacity s); simpl.
  - constructor; simpl; [rewrite length_app; lia | | | lia | by left].
    + intros r Hr _. by apply lookup_app_l_Some.
    + intros r Hr. by apply lookup_app_l_Some.
  - constructor; simpl; auto.
Qed.

Lemma insert_true_sticky (flags : list bool) (r x : nat) :
  flags !! x = Some true → <[r := true]> flags !! x = Some true.
Proof.
  intros Hx. destruct (decide (r = x)) as [->|Hne].
  - rewrite list_lookup_insert_eq; [done | by eapply lookup_lt_Some].
  - by rewrite list_lookup_insert_ne.
Qed.

Lemma call_evolves (r : Release) (s s' : Semaphore) (b : bool) :
  wf s → call r s = Some (b, s') → evolves (Some r) s s'.
Proof.
  intros Hwf Hcall.
  destruct (call_cases _ _ _ _ Hwf Hcall) as [Hr|Hr Hqueue|f q Hr Hqueue Hnone].
  - constructor; auto.
  - constructor; simpl; [by rewrite length_insert | | | lia | by left].
    + intros x Hx Hne. rewrite list_lookup_insert_ne; [done | congruence].
    + intros x Hx. by apply insert_true_sticky.
  - constructor; simpl; [rewrite length_app, length_insert; lia | | | lia |].
    + intros x Hx Hne. apply lookup_app_l_Some.
      rewrite list_lookup_insert_ne; [done | congruence].
    + intros x Hx. apply lookup_app_l_Some. by apply insert_true_sticky.
    + right. exists f. split_and!; [done | done |].
      rewrite lookup_app_r by (rewrite length_insert; lia).
      rewrite length_insert, Nat.sub_diag. done.
Qed.

End Evolution.

Section World_facts.
Context {T E F : Type}.
Implicit Types (w : World T E F) (i j : Invocation F) (ph : Phase).

Lemma token_resolved (s s' : Semaphore) ph :
  resolved s' = resolved s → token s' ph = token s ph.
Proof. intros Hres. destruct ph as [[r|f]| |]; simpl; by rewrite ?Hres. Qed.

(** A call hands out at most one new token, to the invocation that waits
    for the future at the head of the queue. *)
Lemma token_evolves (r0 : option Release) (s s' : Semaphore) ph (r : Release) :
  evolves r0 s s' → token s' ph = Some r →
  token s ph = Some r ∨
  (r = length (released s) ∧ released s' !! r = Some false ∧
   ∃ f, ph = Acquiring (Deferred f) ∧ resolved s' = resolved s ++ [(f, r)]).
Proof.
  intros [_ _ _ _ Hres]. destruct ph as [[r'|f]| |]; simpl; auto.
  destruct Hres as [-> | (g & -> & Hnone & Hnew)]; auto.
  rewrite value_of_snoc. destruct (value_of f (resolved s)) eqn:Hf; auto.
  destruct (Nat.eqb_spec f g) as [->|]; [| done].
  intros [= <-]. right. eauto 10.
Qed.

Lemma token_keeps (r0 : option Release) (s s' : Semaphore) ph (r : Release) :
  evolves r0 s s' → token s ph = Some r → token s' ph = Some r.
Proof.
  intros [_ _ _ _ Hres]. destruct ph as [[r'|f]| |]; simpl; auto.
  destruct Hres as [-> | (g & -> & _)]; auto.
  rewrite value_of_snoc. by intros ->.
Qed.

Lemma start_winv (s : Semaphore) : wf s → winv (start (T:=T) (E:=E) (F:=F) s).
Proof.
  intros Hs. constructor; simpl; try done; try (intros; by simplify_eq).
  - constructor.
  - by intros ? ? ?%elem_of_nil.
Qed.

(** The semaphore moves, the invocations stay. *)
Lemma winv_set_sem w (s' : Semaphore) (r0 : option Release) :
  winv w → wf s' → evolves r0 (sem w) s' →
  (∀ k i r, calls w !! k = Some i → live (phase i) →
            token (sem w) (phase i) = Some r → r0 ≠ Some r) →
  winv (set_sem w s').
Proof.
  intros [Hs Hheld Hlive Hown Hwait Hfut Hnd Hdone] Hwf Hev Hr0.
  constructor; simpl; auto.
  - intros k i r Hk Ht.
    destruct (token_evolves _ _ _ _ _ Hev Ht) as [Hold | (-> & Hnew & _)].
    + pose proof (Hheld _ _ _ Hk Hold). pose proof (ev_alloc _ _ _ Hev). lia.
    + by apply lookup_lt_Some in Hnew.
  - intros k i r Hk Ht Hl.
    destruct (token_evolves _ _ _ _ _ Hev Ht) as [Hold | (-> & Hnew & _)]; [| done].
    apply (ev_flags _ _ _ Hev); eauto.
  - intros k1 k2 i1 i2 r H1 H2 Ht1 Ht2.
    destruct (token_evolves _ _ _ _ _ Hev Ht1) as [Ho1 | (Hr1 & _ & f1 & Hp1 & He1)],
             (token_evolves _ _ _ _ _ Hev Ht2) as [Ho2 | (Hr2 & _ & f2 & Hp2 & He2)].
    + eauto.
    + pose proof (Hheld _ _ _ H1 Ho1). lia.
    + pose proof (Hheld _ _ _ H2 Ho2). lia.
    + rewrite He1 in He2. apply app_inv_head in He2. injection He2 as ->.
      eapply Hwait; eauto.
  - intros k i f Hk Hp. pose proof (ev_futures _ _ _ Hev).
    specialize (Hfut _ _ _ Hk Hp). lia.
Qed.

(** One invocation moves on, the semaphore stays. *)
Lemma winv_replace w (k : nat) i i' :
  winv w → calls w !! k = Some i →
  token (sem w) (phase i') = token (sem w) (phase i) →
  (live (phase i') → live (phase i)) →
  (∀ f, phase i' ≠ Acquiring (Deferred f)) →
  live (phase i) →
  winv (mkWorld (sem w) (<[k := i']> (calls w)) (settled w)).
Proof.
  intros [Hs Hheld Hlive Hown Hwait Hfut Hnd Hdone] Hk Htok Hlv Hdef Hli.
  assert (∀ k' j, <[k := i']> (calls w) !! k' = Some j →
            ∃ j0, calls w !! k' = Some j0 ∧
                  token (sem w) (phase j) = token (sem w) (phase j0) ∧
                  (live (phase j) → live (phase j0)) ∧
                  (∀ f, phase j = Acquiring (Deferred f) → phase j0 = phase j))
    as Hback.
  { intros k' j [(<- & <- & _) | (Hne & Hj)]%list_lookup_insert_Some.
    - exists i. split_and!; auto. intros f Hf. by destruct (Hdef f).
    - exists j. split_and!; auto. }
  constructor; simpl; auto.
  - intros k' j r (j0 & Hj0 & Ht & _)%Hback. rewrite Ht. eauto.
  - intros k' j r (j0 & Hj0 & Ht & Hl & _)%Hback. rewrite Ht. eauto.
  - intros k1 k2 i1 i2 r (j1 & Hj1 & Ht1 & _)%Hback (j2 & Hj2 & Ht2 & _)%Hback.
    rewrite Ht1, Ht2. eauto.
  - intros k1 k2 i1 i2 f (j1 & Hj1 & _ & _ & Hd1)%Hback (j2 & Hj2 & _ & _ & Hd2)%Hback
      Hp1 Hp2.
    eapply Hwait; eauto; [rewrite (Hd1 f Hp1) | rewrite (Hd2 f Hp2)]; done.
  - intros k' j f (j0 & Hj0 & _ & _ & Hd)%Hback Hp.
    eapply Hfut; eauto. by rewrite (Hd f Hp).
  - intros k' o (f & r & Hc)%Hdone. exists f, r.
    rewrite list_lookup_insert_ne; [done |].
    intros <-. rewrite Hk in Hc. injection Hc as ->. done.
Qed.

(** A new invocation, the semaphore stays. *)
Lemma winv_append w i :
  winv w →
  (∀ r, token (sem w) (phase i) = Some r →
        released (sem w) !! r = Some false ∧
        ∀ k j, calls w !! k = Some j → token (sem w) (phase j) ≠ Some r) →
  (∀ f, phase i = Acquiring (Deferred f) →
        (f < futures (sem w))%nat ∧
        ∀ k j, calls w !! k = Some j → phase j ≠ Acquiring (Deferred f)) →
  winv (mkWorld (sem w) (calls w ++ [i]) (settled w)).
Proof.
  intros [Hs Hheld Hlive Hown Hwait Hfut Hnd Hdone] Htok Hdef.
  assert (∀ k j, (calls w ++ [i]) !! k = Some j →
            calls w !! k = Some j ∨ (k = length (calls w) ∧ j = i)) as Hback.
  { intros k j [?|[Hle [Hz ->]%list_lookup_singleton_Some]]%lookup_app_Some; auto.
    right. split; [lia | done]. }
  constructor; simpl; auto.
  - intros k j r [Hj | [-> ->]]%Hback Ht; [eauto |].
    destruct (Htok _ Ht) as [Hr _]. by apply lookup_lt_Some in Hr.
  - intros k j r [Hj | [-> ->]]%Hback Ht Hl; [eauto |]. by destruct (Htok _ Ht).
  - intros k1 k2 i1 i2 r [H1 | [-> ->]]%Hback [H2 | [-> ->]]%Hback Ht1 Ht2;
      [eauto | | | done].
    + destruct (Htok _ Ht2) as [_ Hno]. by destruct (Hno _ _ H1).
    + destruct (Htok _ Ht1) as [_ Hno]. by destruct (Hno _ _ H2).
  - intros k1 k2 i1 i2 f [H1 | [-> ->]]%Hback [H2 | [-> ->]]%Hback Hp1 Hp2;
      [eauto | | | done].
    + destruct (Hdef _ Hp2) as [_ Hno]. by destruct (Hno _ _ H1).
    + destruct (Hdef _ Hp1) as [_ Hno]. by destruct (Hno _ _ H2).
  - intros k j f [Hj | [-> ->]]%Hback Hp; [eauto |]. by destruct (Hdef _ Hp).
  - intros k o (f & r & Hc)%Hdone. exists f, r. by apply lookup_app_l_Some.
Qed.

(** A promise of [use] settles. *)
Lemma winv_log w (k : nat) (o : Outcome T E) :
  winv w → k ∉ (settled w).*1 →
  (∃ f r, calls w !! k = Some (mkInvocation f (Completed r))) →
  winv (mkWorld (sem w) (calls w) (settled w ++ [(k, o)])).
Proof.
  intros [Hs Hheld Hlive Hown Hwait Hfut Hnd Hdone] Hk Hc.
  constructor; simpl; auto.
  - rewrite fmap_app. apply NoDup_app. split_and!; [done | | apply NoDup_singleton].
    intros x Hx ->%list_elem_of_singleton. done.
  - intros k' o' [?|[= -> ->]%list_elem_of_singleton]%elem_of_app; eauto.
Qed.

End World_facts.

Section Steps.
Context {T E F : Type}.
Implicit Types (w : World T E F) (i j : Invocation F) (ph : Phase).

Lemma use_call_winv w (f : F) : winv w → winv (use_call f w).2.
Proof.
  intros Hw. pose proof (winv_sem _ Hw) as Hs.
  assert (winv (set_sem w (acquire (sem w)).2)) as Hw1.
  { eapply winv_set_sem; [done | by apply acquire_wf | apply acquire_evolves |].
    intros. done. }
  unfold use_call. destruct (acquire (sem w)) as [p s] eqn:Hacq. simpl in *.
  apply (winv_append (set_sem w s)); [done | |]; simpl.
  - intros r Hr. unfold acquire in Hacq.
    destruct (count (sem w) <? capacity (sem w)); simpl in Hacq;
      injection Hacq as <- <-; simpl in *.
    + injection Hr as <-. split.
      * rewrite lookup_app_r by lia. by rewrite Nat.sub_diag.
      * intros k j Hj Ht.
        rewrite (token_resolved (sem w)) in Ht by done.
        pose proof (winv_held _ Hw _ _ _ Hj Ht). lia.
    + apply value_of_Some in Hr.
      pose proof (wf_fifo _ Hs) as Hfifo.
      assert (futures (sem w) ∈ seq 0 (futures (sem w))) as Hin.
      { rewrite <- Hfifo. apply elem_of_app. left.
        apply list_elem_of_fmap. by exists (futures (sem w), r). }
      apply elem_of_seq in Hin. lia.
  - intros f' [= ->]. unfold acquire in Hacq.
    destruct (count (sem w) <? capacity (sem w)); simpl in Hacq; [done |].
    injection Hacq as <- <-; simpl in *.
    split; [lia |]. intros k j Hj Hp.
    pose proof (winv_future _ Hw _ _ _ Hj Hp). lia.
Qed.

Lemma use_resume_winv w (k : nat) w' :
  winv w → use_resume k w = Some w' → winv w'.
Proof.
  intros Hw. unfold use_resume.
  destruct (calls w !! k) as [[f [p|r|r]]|] eqn:Hk; try done.
  destruct (awaited (sem w) p) as [r|] eqn:Hp; [| done].
  intros [= <-]. eapply winv_replace; eauto; simpl; try done.
Qed.

Lemma use_finish_inv w (k : nat) (o : Outcome T E) w' :
  use_finish k o w = Some w' →
  ∃ f r b s, calls w !! k = Some (mkInvocation f (InBody r)) ∧
             call r (sem w) = Some (b, s) ∧
             w' = mkWorld s (<[k := mkInvocation f (Completed r)]> (calls w))
                    (settled w ++ [(k, o)]).
Proof.
  unfold use_finish.
  destruct (calls w !! k) as [[f [p|r|r]]|] eqn:Hk; try done.
  destruct (call r (sem w)) as [[b s]|] eqn:Hcall; [| done].
  intros [= <-]. by exists f, r, b, s.
Qed.

Lemma use_finish_winv w (k : nat) (o : Outcome T E) w' :
  winv w → use_finish k o w = Some w' → winv w'.
Proof.
  intros Hw (f & r & b & s & Hk & Hcall & ->)%use_finish_inv.
  pose proof (winv_sem _ Hw) as Hs.
  assert (k ∉ (settled w).*1) as Hfresh.
  { intros ([k' o'] & Heq & Hin)%list_elem_of_fmap. simpl in Heq. subst k'.
    apply (winv_done _ Hw) in Hin as (f' & r' & Hc). congruence. }
  assert (k < length (calls w))%nat as Hlt by by eapply lookup_lt_Some.
  set (fin := mkInvocation f (Completed r)).
  assert (winv (mkWorld (sem w) (<[k := fin]> (calls w)) (settled w))) as Hw1.
  { eapply winv_replace; eauto; simpl; done. }
  assert (winv (set_sem (mkWorld (sem w) (<[k := fin]> (calls w)) (settled w)) s))
    as Hw2.
  { eapply winv_set_sem; [done | by eapply call_wf | by eapply call_evolves |].
    simpl. intros k' i r' Hk' Hl Ht [= ->].
    assert (k' = k) as ->.
    { apply (winv_own _ Hw1 k' k i fin r'); simpl; [done | | done | done].
      by apply list_lookup_insert_eq. }
    rewrite list_lookup_insert_eq in Hk' by done. injection Hk' as <-. done. }
  apply (winv_log _ k o) in Hw2; simpl in *; [done | done |].
  exists f, r. by apply list_lookup_insert_eq.
Qed.

Lemma step_winv (a : Action T E F) w w' : winv w → step a w = Some w' → winv w'.
Proof.
  intros Hw. pose proof (winv_sem _ Hw) as Hs. destruct a as [| |r|f|k|k o]; simpl.
  - intros [= <-]. eapply winv_set_sem;
      [done | by apply tryAcquire_wf | apply tryAcquire_evolves | done].
  - intros [= <-]. eapply winv_set_sem;
      [done | by apply acquire_wf | apply acquire_evolves | done].
  - case_bool_decide as Hpriv; [done |].
    destruct (call r (sem w)) as [[b s]|] eqn:Hcall; [| done].
    intros [= <-]. eapply winv_set_sem;
      [done | by eapply call_wf | by eapply call_evolves |].
    intros k i r' Hk _ Ht [= ->]. apply Hpriv.
    apply list_elem_of_omap. exists i. split; [| done].
    by eapply list_elem_of_lookup_2.
  - intros [= <-]. by apply use_call_winv.
  - by apply use_resume_winv.
  - by apply use_finish_winv.
Qed.

Lemma run_winv (acts : list (Action T E F)) w w' :
  winv w → run acts w = Some w' → winv w'.
Proof.
  revert w. induction acts as [|a acts IH]; intros w Hw; simpl.
  - by intros [= <-].
  - destruct (step a w) as [w1|] eqn:Hstep; [| done].
    apply IH. by eapply step_winv.
Qed.

Lemma run_app (acts1 acts2 : list (Action T E F)) w :
  run (acts1 ++ acts2) w = run acts1 w ≫= run acts2.
Proof.
  revert w. induction acts1 as [|a acts1 IH]; intros w; simpl; [done |].
  destruct (step a w); simpl; auto.
Qed.

End Steps.


(** ** Construction *)

Lemma positive_integer_iff (c : number) :
  positive_integer c ↔ le_zero c || negb (Number_isInteger c) = false.
Proof.
  rewrite orb_false_iff, negb_false_iff. split.
  - intros (n & Hn & [a d] & -> & Hq). unfold Qeq in Hq. simpl in *.
    assert (a = n * Z.pos d) as -> by lia.
    split; [apply Z.leb_gt; nia |]. apply Z.eqb_eq. by apply Z_mod_mult.
  - destruct c as [[a d]| | |]; simpl; try (intros []; discriminate).
    intros [Hpos%Z.leb_gt Hint%Z.eqb_eq].
    pose proof (Z.div_mod a (Z.pos d)) as Hdm.
    exists (a `div` Z.pos d). split; [nia |].
    exists (a # d). split; [done |]. unfold Qeq. simpl. lia.
Qed.

Lemma positive_integer_value (c : number) (n : Z) (q : Q) :
  0 < n → c = Finite q → Qeq q (inject_Z n) → to_Z c = n.
Proof.
  intros Hn -> Hq. destruct q as [a d]. unfold Qeq in Hq. simpl in *.
  assert (a = n * Z.pos d) as -> by lia. by apply Z_div_mult.
Qed.

(** C9: the constructor of [Semaphore], and the one of [TaskPool] which
    passes its argument on, throw the capacity error exactly when the
    capacity is not a positive integer (zero, negative, a fraction, [NaN],
    an infinity); for a positive integer [n] they succeed with [used = 0],
    [permits = n] and an empty queue. *)
Theorem semaphore_construction (c : number) :
  (¬ positive_integer c →
     Sem.new c = inl InvalidCapacity ∧ TaskPool_new c = inl InvalidCapacity) ∧
  (positive_integer c →
     ∃ s, Sem.new c = inr s ∧ TaskPool_new c = inr s ∧
          capacity s = to_Z c ∧ used s = 0 ∧ permits s = to_Z c ∧ queue s = []) ∧
  (∀ n : Z, 0 < n →
     ∃ s, Sem.new (of_Z n) = inr s ∧ TaskPool_new (of_Z n) = inr s ∧
          capacity s = n ∧ used s = 0 ∧ permits s = n ∧ queue s = []).
Proof.
  assert (∀ c', positive_integer c' →
     ∃ s, Sem.new c' = inr s ∧ TaskPool_new c' = inr s ∧
          capacity s = to_Z c' ∧ used s = 0 ∧ permits s = to_Z c' ∧ queue s = [])
    as Hok.
  { intros c' Hc%positive_integer_iff. unfold TaskPool_new, Sem.new. rewrite Hc.
    eexists. split_and!; try done. unfold permits. simpl. lia. }
  split_and!.
  - intros Hc. rewrite positive_integer_iff in Hc. apply not_false_is_true in Hc.
    unfold TaskPool_new, Sem.new. by rewrite Hc.
  - apply Hok.
  - intros n Hn.
    assert (positive_integer (of_Z n)) as Hc.
    { exists n. split; [done |]. exists (inject_Z n). split; [done | reflexivity]. }
    destruct (Hok _ Hc) as (s & ? & ? & Hcap & ? & Hper & ?).
    assert (to_Z (of_Z n) = n) as Hval by (unfold of_Z; simpl; apply Z.div_1_r).
    exists s. rewrite Hval in *. done.
Qed.

Lemma semaphore_construction_witness :
  ¬ positive_integer (Finite (3 # 2)) ∧
  Sem.new (Finite (3 # 2)) = inl InvalidCapacity ∧
  Sem.new (of_Z 0) = inl InvalidCapacity ∧
  Sem.new NaN = inl InvalidCapacity ∧
  ∃ s, Sem.new (of_Z 3) = inr s ∧ used s = 0 ∧ permits s = 3.
Proof.
  assert (¬ positive_integer (Finite (3 # 2))) as Hfrac.
  { rewrite positive_integer_iff. by vm_compute. }
  split; [done |]. split; [apply (semaphore_construction (Finite (3 # 2))), Hfrac |].
  split; [reflexivity |]. split; [reflexivity |].
  destruct (semaphore_construction (of_Z 3)) as (_ & _ & Hn).
  destruct (Hn 3) as (s & Hs & _ & _ & Hu & Hp & _); [lia |].
  by exists s.
Defined.

(** ** [tryAcquire] *)

(** C5: [tryAcquire] succeeds exactly when [used < capacity].  A success
    adds one to [used] and returns a closure that did not exist before and
    whose [released] is false; nothing else changes.  A failure returns
    [null] and changes nothing: [used] and the queue are as they were. *)
Theorem tryAcquire_spec (s : Semaphore) :
  (is_Some (tryAcquire s).1 ↔ used s < capacity s) ∧
  (∀ r s', tryAcquire s = (Some r, s') →
     used s' = used s + 1 ∧
     released s !! r = None ∧ released s' !! r = Some false ∧
     (∀ r', r' ≠ r → released s' !! r' = released s !! r') ∧
     queue s' = queue s ∧ capacity s' = capacity s ∧
     futures s' = futures s ∧ resolved s' = resolved s) ∧
  (∀ s', tryAcquire s = (None, s') → s' = s).
Proof.
  unfold tryAcquire, used. destruct (Z.ltb_spec (count s) (capacity s)) as [Hlt|Hge]; simpl.
  - split_and!.
    + split; [done | by eexists].
    + intros r s' [= <- <-]. simpl. split_and!; try done.
      * by apply lookup_ge_None.
      * rewrite lookup_app_r by lia. by rewrite Nat.sub_diag.
      * intros r' Hne. destruct (decide (r' < length (released s))%nat).
        -- by rewrite lookup_app_l.
        -- rewrite lookup_app_r by lia.
           rewrite (lookup_ge_None_2 (released s)) by lia.
           apply lookup_ge_None_2. simpl. lia.
    + intros s' [=].
  - split_and!.
    + split; [by intros [? [=]] | lia].
    + intros r s' [=].
    + by intros s' [= <-].
Qed.

(** ** Runs from a fresh semaphore *)

Section Reachable.
Context {T E F : Type}.
Implicit Types (w : World T E F) (acts : list (Action T E F)).

Lemma reach_winv (c : number) (s0 : Semaphore) acts w :
  Sem.new c = inr s0 → run acts (start s0) = Some w → winv w.
Proof.
  intros Hnew Hrun. eapply run_winv; [| done]. by eapply start_winv, new_wf.
Qed.

Lemma tryAcquire_in_bounds (s : Semaphore) : in_bounds s → in_bounds (tryAcquire s).2.
Proof.
  unfold in_bounds, used, tryAcquire.
  destruct (Z.ltb_spec (count s) (capacity s)); simpl; lia.
Qed.

Lemma acquire_in_bounds (s : Semaphore) : in_bounds s → in_bounds (acquire s).2.
Proof.
  unfold in_bounds, used, acquire.
  destruct (Z.ltb_spec (count s) (capacity s)); simpl; lia.
Qed.

Lemma call_in_bounds (r : Release) (s s' : Semaphore) (b : bool) :
  in_bounds s → call r s = Some (b, s') → in_bounds s'.
Proof.
  unfold in_bounds, used, call. intros Hb.
  destruct (released s !! r) as [flag|]; [| done].
  destruct (flag || (count s <=? 0)) eqn:Hg; [by intros [= <- <-] |].
  apply orb_false_elim in Hg as [_ Hpos%Z.leb_gt]. simpl.
  destruct (queue s) as [|f q]; simpl; [intros [= <- <-]; simpl; lia |].
  destruct (Z.ltb_spec (count s - 1) (capacity s)); intros [= <- <-]; simpl; [| lia].
  unfold run_callback, resolve; simpl.
  destruct (value_of f (resolved s)); simpl; lia.
Qed.

Lemma step_in_bounds (a : Action T E F) w w' :
  in_bounds (sem w) → step a w = Some w' → in_bounds (sem w').
Proof.
  intros Hb. destruct a as [| |r|f|k|k o]; simpl.
  - intros [= <-]. by apply tryAcquire_in_bounds.
  - intros [= <-]. by apply acquire_in_bounds.
  - case_bool_decide; [done |].
    destruct (call r (sem w)) as [[b s]|] eqn:Hcall; [| done].
    intros [= <-]. by eapply call_in_bounds.
  - intros [= <-]. unfold use_call.
    pose proof (acquire_in_bounds _ Hb). by destruct (acquire (sem w)).
  - unfold use_resume. destruct (calls w !! k) as [[f [p|r|r]]|]; try done.
    destruct (awaited (sem w) p); [| done]. by intros [= <-].
  - intros (f & r & b & s & _ & Hcall & ->)%use_finish_inv. by eapply call_in_bounds.
Qed.

End Reachable.

(** C2: [0 ≤ used ≤ capacity] holds of a semaphore built with a valid
    capacity, every operation keeps it ([tryAcquire], [acquire], the call of
    a token with its hand-off to the queue, and the three pieces of [use]),
    and so it holds after every run. *)
Theorem used_in_bounds {T E F : Type} (c : number) (s0 : Semaphore) :
  Sem.new c = inr s0 →
  in_bounds s0 ∧
  (∀ (a : Action T E F) w w',
     in_bounds (sem w) → step a w = Some w' → in_bounds (sem w')) ∧
  (∀ (acts : list (Action T E F)) w,
     run acts (start s0) = Some w → 0 ≤ used (sem w) ≤ capacity (sem w)).
Proof.
  intros Hnew. split_and!.
  - apply (wf_bounds _ (new_wf _ _ Hnew)).
  - apply @step_in_bounds.
  - intros acts w Hrun. apply (wf_bounds (sem w)), winv_sem. by eapply reach_winv.
Qed.

Lemma used_in_bounds_witness :
  let acts : list (Action unit unit unit) :=
    [Acquire; Use (); Acquire; Call 0%nat; Resume 0%nat; Settle 0%nat (Returned ())] in
  ∃ w, run acts (start (mkSemaphore 2 0 [] [] 0 [])) = Some w ∧
       0 ≤ used (sem w) ≤ capacity (sem w).
Proof.
  intros acts. eexists. split; [vm_compute; reflexivity |].
  destruct (used_in_bounds (T:=unit) (E:=unit) (F:=unit)
              (of_Z 2) (mkSemaphore 2 0 [] [] 0 []) eq_refl) as (_ & _ & Hrun).
  apply (Hrun acts). vm_compute; reflexivity.
Defined.

(** C8: after every run, [used] is the number of outstanding tokens: the
    closures made by [release()] (for [tryAcquire], for [acquire], for a
    queued waiter at the hand-off) whose [released] is still false. *)
Theorem used_is_outstanding {T E F : Type} (c : number) (s0 : Semaphore)
    (acts : list (Action T E F)) (w : World T E F) :
  Sem.new c = inr s0 → run acts (start s0) = Some w →
  used (sem w) = Z.of_nat (length (outstanding (sem w))) ∧
  NoDup (outstanding (sem w)) ∧
  (∀ r, r ∈ outstanding (sem w) ↔ released (sem w) !! r = Some false).
Proof.
  intros Hnew Hrun. split_and!.
  - apply (wf_tokens (sem w)), winv_sem. by eapply reach_winv.
  - apply NoDup_unreleased_from.
  - apply elem_of_outstanding.
Qed.

Lemma used_is_outstanding_witness :
  let acts : list (Action unit unit unit) :=
    [Acquire; Use (); Acquire; Call 0%nat; Resume 0%nat] in
  ∃ w, run acts (start (mkSemaphore 2 0 [] [] 0 [])) = Some w ∧
       used (sem w) = Z.of_nat (length (outstanding (sem w))) ∧
       outstanding (sem w) = [1; 2]%nat.
Proof.
  intros acts. eexists. split; [vm_compute; reflexivity |]. split; [| reflexivity].
  apply (used_is_outstanding (of_Z 2) (mkSemaphore 2 0 [] [] 0 []) acts _ eq_refl).
  vm_compute; reflexivity.
Defined.

Section Sticky.
Context {T E F : Type}.
Implicit Types (w : World T E F) (acts : list (Action T E F)).

Lemma evolves_refl (r0 : option Release) (s : Semaphore) : evolves r0 s s.
Proof. constructor; auto. Qed.

Lemma step_evolves (a : Action T E F) w w' :
  winv w → step a w = Some w' → ∃ r0, evolves r0 (sem w) (sem w').
Proof.
  intros Hw. pose proof (winv_sem _ Hw) as Hs. destruct a as [| |r|f|k|k o]; simpl.
  - intros [= <-]. exists None. apply tryAcquire_evolves.
  - intros [= <-]. exists None. apply acquire_evolves.
  - case_bool_decide; [done |].
    destruct (call r (sem w)) as [[b s]|] eqn:Hcall; [| done].
    intros [= <-]. exists (Some r). by eapply call_evolves.
  - intros [= <-]. exists None. unfold use_call.
    pose proof (acquire_evolves (sem w)). by destruct (acquire (sem w)).
  - unfold use_resume. destruct (calls w !! k) as [[f [p|r|r]]|]; try done.
    destruct (awaited (sem w) p); [| done]. intros [= <-].
    exists None. apply evolves_refl.
  - intros (f & r & b & s & _ & Hcall & ->)%use_finish_inv.
    exists (Some r). by eapply call_evolves.
Qed.

Lemma run_sticky acts w w' (r : Release) :
  winv w → run acts w = Some w' →
  released (sem w) !! r = Some true → released (sem w') !! r = Some true.
Proof.
  revert w. induction acts as [|a acts IH]; intros w Hw; simpl.
  - by intros [= <-].
  - destruct (step a w) as [w1|] eqn:Hstep; [| done].
    intros Hrun Hr. destruct (step_evolves _ _ _ Hw Hstep) as [r0 Hev].
    eapply IH; [by eapply step_winv | done | by eapply ev_sticky].
Qed.

Lemma call_released (r : Release) (s : Semaphore) :
  released s !! r = Some true → call r s = Some (false, s).
Proof. unfold call. by intros ->. Qed.

Lemma call_at_zero (r : Release) (s : Semaphore) :
  used s ≤ 0 → is_Some (released s !! r) → call r s = Some (false, s).
Proof.
  unfold call, used. intros Hz [flag ->].
  destruct (Z.leb_spec (count s) 0); [| lia]. by rewrite orb_true_r.
Qed.

End Sticky.

(** C10: after every run, a queue that is not empty means [used = capacity].
    So [tryAcquire] returns [null] whenever somebody is queued, and a token
    called with success while somebody is queued gives the permit to the
    head of the queue: [used] is as before, the head is gone from the queue
    and its future is resolved with a new, unreleased token. *)
Theorem queued_means_full {T E F : Type} (c : number) (s0 : Semaphore)
    (acts : list (Action T E F)) (w : World T E F) :
  Sem.new c = inr s0 → run acts (start s0) = Some w →
  (queue (sem w) ≠ [] → used (sem w) = capacity (sem w)) ∧
  (queue (sem w) ≠ [] → tryAcquire (sem w) = (None, sem w)) ∧
  (∀ r s' f q, queue (sem w) = f :: q → call r (sem w) = Some (true, s') →
     used s' = used (sem w) ∧ queue s' = q ∧
     resolved s' = resolved (sem w) ++ [(f, length (released (sem w)))] ∧
     released s' !! length (released (sem w)) = Some false).
Proof.
  intros Hnew Hrun. pose proof (winv_sem _ (reach_winv _ _ _ _ Hnew Hrun)) as Hs.
  split_and!.
  - apply (wf_full _ Hs).
  - intros Hq. unfold tryAcquire. rewrite (wf_full _ Hs Hq).
    by rewrite Z.ltb_irrefl.
  - intros r s' f q Hq Hcall.
    pose proof (call_cases _ _ _ _ Hs Hcall) as Hc.
    inversion Hc as [|? Hq0|f' q' Hr Hq' Hnone]; subst; simpl; [congruence |].
    rewrite Hq in Hq'. injection Hq' as <- <-. split_and!; try done.
    rewrite lookup_app_r by (rewrite length_insert; lia).
    by rewrite length_insert, Nat.sub_diag.
Qed.

Lemma queued_means_full_witness :
  let acts : list (Action unit unit unit) := [Acquire; Use (); Acquire] in
  ∃ w, run acts (start (mkSemaphore 1 0 [] [] 0 [])) = Some w ∧
       queue (sem w) = [0; 1]%nat ∧ used (sem w) = capacity (sem w) ∧
       tryAcquire (sem w) = (None, sem w).
Proof.
  intros acts. eexists. split; [vm_compute; reflexivity |]. split; [reflexivity |].
  destruct (queued_means_full (of_Z 1) (mkSemaphore 1 0 [] [] 0 []) acts _ eq_refl
              ltac:(vm_compute; reflexivity)) as (Hfull & Htry & _).
  split; [by apply Hfull | by apply Htry].
Defined.

(** C3, as stated, fails: on a semaphore of capacity 1 whose permit is held
    while one acquirer is queued, the first call of the token returns true
    and [used] is 1 before and after, because the permit goes to the
    waiter. *)
Lemma first_call_with_waiter :
  let held := mkSemaphore 1 1 [0%nat] [false] 1 [] in
  sem <$> run (T:=unit) (E:=unit) (F:=unit) [Acquire; Acquire]
            (start (mkSemaphore 1 0 [] [] 0 [])) = Some held ∧
  released held !! 0%nat = Some false ∧
  call 0%nat held = Some (true, mkSemaphore 1 1 [] [true; false] 1 [(0, 1)%nat]) ∧
  ¬ first_call_decrements.
Proof.
  intros held. split_and!; try reflexivity.
  intros Hclaim.
  destruct (Hclaim (of_Z 1) (mkSemaphore 1 0 [] [] 0 []) [Acquire; Acquire]
              (start held) 0%nat eq_refl eq_refl eq_refl) as (s' & Hcall & Hused).
  vm_compute in Hcall. injection Hcall as <-. vm_compute in Hused. discriminate.
Qed.

(** C3, amended: after every run, the first call of a token returns true
    and sets its [released]; it takes 1 from [used] when the queue is empty,
    and leaves [used] as it was when somebody is queued (the permit goes to
    the head of the queue).  Every later call of the same token, whatever
    ran in between, returns false and changes nothing; so does every call
    made when [used] is 0 or less. *)
Theorem token_call {T E F : Type} (c : number) (s0 : Semaphore)
    (acts : list (Action T E F)) (w : World T E F) (r : Release) :
  Sem.new c = inr s0 → run acts (start s0) = Some w →
  (released (sem w) !! r = Some false →
     ∃ s', call r (sem w) = Some (true, s') ∧
           released s' !! r = Some true ∧
           (queue (sem w) = [] → used s' = used (sem w) - 1) ∧
           (queue (sem w) ≠ [] → used s' = used (sem w))) ∧
  (released (sem w) !! r = Some true →
     ∀ acts' w', run acts' w = Some w' → call r (sem w') = Some (false, sem w')) ∧
  (∀ s : Semaphore, used s ≤ 0 → is_Some (released s !! r) → call r s = Some (false, s)).
Proof.
  intros Hnew Hrun. pose proof (reach_winv _ _ _ _ Hnew Hrun) as Hw.
  pose proof (winv_sem _ Hw) as Hs. split_and!.
  - intros Hr. destruct (call r (sem w)) as [[b s']|] eqn:Hcall.
    + pose proof (call_cases _ _ _ _ Hs Hcall) as Hc.
      inversion Hc as [Hr'|Hr' Hq|f q Hr' Hq Hnone]; subst; [congruence | |].
      * eexists. split; [done |]. simpl. split_and!; try done.
        by apply list_lookup_insert_eq, lookup_lt_Some with false.
      * eexists. split; [done |]. simpl. split_and!; try done.
        -- apply lookup_app_l_Some.
           by apply list_lookup_insert_eq, lookup_lt_Some with false.
        -- by rewrite Hq.
    + unfold call in Hcall. rewrite Hr in Hcall. simpl in Hcall.
      by destruct (count (sem w) <=? 0).
  - intros Hr acts' w' Hrun'. apply call_released. by eapply run_sticky.
  - intros s. apply call_at_zero.
Qed.

Lemma token_call_witness :
  let acts : list (Action unit unit unit) := [Acquire; Acquire] in
  ∃ w, run acts (start (mkSemaphore 1 0 [] [] 0 [])) = Some w ∧
       ∃ s', call 0%nat (sem w) = Some (true, s') ∧ used s' = used (sem w) ∧
             call 0%nat s' = Some (false, s').
Proof.
  intros acts. eexists. split; [vm_compute; reflexivity |].
  destruct (token_call (of_Z 1) (mkSemaphore 1 0 [] [] 0 []) acts _ 0%nat eq_refl
              ltac:(vm_compute; reflexivity)) as (Hfirst & _ & _).
  destruct (Hfirst eq_refl) as (s' & Hcall & Hflag & _ & Hsame).
  exists s'. split_and!; [done | by apply Hsame | by apply call_released].
Defined.

(** ** The order of the queue *)

Section Fifo.
Context {T E F : Type}.
Implicit Types (w : World T E F) (acts : list (Action T E F)).

Lemma acquire_futures (s : Semaphore) :
  seq 0 (futures (acquire s).2)
  = seq 0 (futures s)
    ++ option_list (match (acquire s).1 with
                    | Deferred f => Some f
                    | Fulfilled _ => None
                    end).
Proof.
  unfold acquire. destruct (count s <? capacity s); simpl.
  - by rewrite app_nil_r.
  - change (0%nat :: seq 1 (futures s)) with (seq 0 (S (futures s))).
    by rewrite seq_S.
Qed.

Lemma call_futures (r : Release) (s s' : Semaphore) (b : bool) :
  wf s → call r s = Some (b, s') → futures s' = futures s.
Proof.
  intros Hs Hcall. pose proof (call_cases _ _ _ _ Hs Hcall) as Hc.
  by inversion Hc; subst.
Qed.

Lemma step_futures (a : Action T E F) w w' :
  winv w → step a w = Some w' →
  seq 0 (futures (sem w')) = seq 0 (futures (sem w)) ++ option_list (enqueues a w).
Proof.
  intros Hw. pose proof (winv_sem _ Hw) as Hs. destruct a as [| |r|f|k|k o]; simpl.
  - intros [= <-]. rewrite app_nil_r. unfold tryAcquire.
    by destruct (count (sem w) <? capacity (sem w)).
  - intros [= <-]. apply acquire_futures.
  - case_bool_decide; [done |].
    destruct (call r (sem w)) as [[b s]|] eqn:Hcall; [| done].
    intros [= <-]. simpl. by rewrite app_nil_r, (call_futures _ _ _ _ Hs Hcall).
  - intros [= <-]. unfold use_call.
    pose proof (acquire_futures (sem w)). by destruct (acquire (sem w)).
  - unfold use_resume. destruct (calls w !! k) as [[f [p|r|r]]|]; try done.
    destruct (awaited (sem w) p); [| done]. intros [= <-]. by rewrite app_nil_r.
  - intros (f & r & b & s & _ & Hcall & ->)%use_finish_inv. simpl.
    by rewrite app_nil_r, (call_futures _ _ _ _ Hs Hcall).
Qed.

Lemma run_futures acts w w' :
  winv w → run acts w = Some w' →
  seq 0 (futures (sem w')) = seq 0 (futures (sem w)) ++ enqueued acts w.
Proof.
  revert w. induction acts as [|a acts IH]; intros w Hw; simpl.
  - intros [= <-]. by rewrite app_nil_r.
  - destruct (step a w) as [w1|] eqn:Hstep; [| done]. intros Hrun.
    rewrite (IH w1), (step_futures a w w1), <- ?app_assoc; try done.
    by eapply step_winv.
Qed.

End Fifo.

(** C1: the waiters are resumed in the order in which they were queued.
    After every run, the futures resolved so far, in the order of their
    resolution, followed by the queue, are the futures the run has queued,
    in the order it queued them.  So a waiter is never resumed while one that
    was queued before it still waits.  On a semaphore of capacity 1 whose
    permit is held, with A, B and C queued in this order (the futures 0, 1
    and 2), releasing the permit resumes A, releasing the token of A resumes
    B, and releasing the token of B resumes C. *)
Theorem fifo_resumption_order {T E F : Type} (c : number) (s0 : Semaphore)
    (acts : list (Action T E F)) (w : World T E F) :
  Sem.new c = inr s0 → run acts (start s0) = Some w →
  resumed w ++ queue (sem w) = enqueued acts (start s0) ∧
  (∀ (i j : nat) (f g : Future),
     (i < j)%nat →
     enqueued acts (start s0) !! i = Some f →
     enqueued acts (start s0) !! j = Some g →
     g ∈ resumed w → resumed w !! i = Some f ∧ f ∉ queue (sem w)) ∧
  (let abc : list (Action unit unit unit) := [Acquire; Acquire; Acquire; Acquire] in
   let s1 := mkSemaphore 1 0 [] [] 0 [] in
   Sem.new (of_Z 1) = inr s1 ∧
   (λ w, (used (sem w), queue (sem w), resumed w)) <$> run abc (start s1)
     = Some (1, [0; 1; 2]%nat, []) ∧
   (λ w, (queue (sem w), resumed w)) <$> run (abc ++ [Call 0%nat]) (start s1)
     = Some ([1; 2]%nat, [0%nat]) ∧
   (λ w, (queue (sem w), resumed w)) <$> run (abc ++ [Call 0; Call 1]%nat) (start s1)
     = Some ([2%nat], [0; 1]%nat) ∧
   (λ w, (queue (sem w), resumed w)) <$> run (abc ++ [Call 0; Call 1; Call 2]%nat) (start s1)
     = Some ([], [0; 1; 2]%nat)).
Proof.
  intros Hnew Hrun. pose proof (reach_winv _ _ _ _ Hnew Hrun) as Hw.
  pose proof (winv_sem _ Hw) as Hs.
  assert (winv (start (T:=T) (E:=E) (F:=F) s0)) as Hw0 by by eapply start_winv, new_wf.
  assert (futures s0 = 0%nat) as Hf0.
  { unfold Sem.new in Hnew. destruct (_ || _); [done |]. by injection Hnew as <-. }
  assert (resumed w ++ queue (sem w) = enqueued acts (start s0)) as Hfifo.
  { unfold resumed. rewrite (wf_fifo _ Hs), (run_futures _ _ _ Hw0 Hrun).
    simpl. by rewrite Hf0. }
  split_and!; [done | | done].
  intros i j f g Hij Hi Hj Hg.
  assert (NoDup (resumed w ++ queue (sem w))) as Hnd.
  { unfold resumed. rewrite (wf_fifo _ Hs). apply NoDup_seq. }
  rewrite <- Hfifo in Hi, Hj.
  apply list_elem_of_lookup in Hg as [j' Hj'].
  assert (j = j') as <-.
  { eapply NoDup_lookup; [exact Hnd | exact Hj | by apply lookup_app_l_Some]. }
  assert (i < length (resumed w))%nat as Hlt.
  { apply lookup_lt_Some in Hj'. lia. }
  rewrite lookup_app_l in Hi by done. split; [done |].
  apply NoDup_app in Hnd as (_ & Hdisj & _). apply Hdisj.
  by eapply list_elem_of_lookup_2.
Qed.

Lemma fifo_resumption_order_witness :
  let acts : list (Action unit unit unit) :=
    [Acquire; Use (); Acquire; Use (); Call 0; Resume 0; Settle 0 (Returned ())]%nat in
  ∃ w, run acts (start (mkSemaphore 1 0 [] [] 0 [])) = Some w ∧
       enqueued acts (start (mkSemaphore 1 0 [] [] 0 [])) = [0; 1; 2]%nat ∧
       resumed w ++ queue (sem w) = [0; 1; 2]%nat.
Proof.
  intros acts. eexists. split; [vm_compute; reflexivity |]. split; [reflexivity |].
  destruct (fifo_resumption_order (of_Z 1) (mkSemaphore 1 0 [] [] 0 []) acts _ eq_refl
              ltac:(vm_compute; reflexivity)) as (Hfifo & _ & _).
  exact Hfifo.
Defined.

(** ** Inside the body of [use] *)

Section Bodies.
Context {T E F : Type}.
Implicit Types (w : World T E F) (acts : list (Action T E F)).

Lemma NoDup_omap_lookup {A B : Type} (g : A → option B) (l : list A) :
  (∀ (i j : nat) (x y : A) (b : B),
     l !! i = Some x → l !! j = Some y → g x = Some b → g y = Some b → i = j) →
  NoDup (omap g l).
Proof.
  induction l as [|a l IH]; intros Hinj; simpl; [constructor |].
  assert (NoDup (omap g l)) as Hrest.
  { apply IH. intros i j x y b Hi Hj Hx Hy.
    assert (S i = S j) by (eapply Hinj; eauto). lia. }
  destruct (g a) as [b|] eqn:Ha; [| done].
  constructor; [| done].
  intros (y & Hy & Hgy)%list_elem_of_omap.
  apply list_elem_of_lookup in Hy as [j Hj].
  assert (0 = S j)%nat by (eapply (Hinj 0%nat (S j) a y b); eauto). lia.
Qed.

Lemma body_token_token (s : Semaphore) (i : Invocation F) (r : Release) :
  body_token i = Some r → token s (phase i) = Some r ∧ live (phase i).
Proof. unfold body_token. destruct (phase i); simpl; try done. Qed.

Lemma inside_bound w : winv w → Z.of_nat (length (inside w)) ≤ capacity (sem w).
Proof.
  intros Hw. pose proof (winv_sem _ Hw) as Hs.
  assert (length (inside w) ≤ length (outstanding (sem w)))%nat as Hle.
  { apply submseteq_length, NoDup_submseteq.
    - apply NoDup_omap_lookup. intros i j x y b Hi Hj Hx Hy.
      apply (body_token_token (sem w)) in Hx as [Hx _], Hy as [Hy _].
      eapply (winv_own _ Hw); eauto.
    - intros r (i & Hi & Hr)%list_elem_of_omap.
      apply list_elem_of_lookup in Hi as [k Hk].
      apply (body_token_token (sem w)) in Hr as [Hr Hl].
      apply elem_of_outstanding. eapply (winv_live _ Hw); eauto. }
  pose proof (wf_tokens _ Hs). pose proof (wf_bounds _ Hs). lia.
Qed.

Lemma step_capacity (a : Action T E F) w w' :
  winv w → step a w = Some w' → capacity (sem w') = capacity (sem w).
Proof.
  intros Hw. pose proof (winv_sem _ Hw) as Hs.
  assert (∀ r b s, call r (sem w) = Some (b, s) → capacity s = capacity (sem w))
    as Hcall.
  { intros r b s Hc. pose proof (call_cases _ _ _ _ Hs Hc) as Hcase.
    by inversion Hcase; subst. }
  assert (capacity (acquire (sem w)).2 = capacity (sem w)) as Hacq.
  { unfold acquire. by destruct (count (sem w) <? capacity (sem w)). }
  destruct a as [| |r|f|k|k o]; simpl.
  - intros [= <-]. unfold tryAcquire. by destruct (count (sem w) <? capacity (sem w)).
  - by intros [= <-].
  - case_bool_decide; [done |].
    destruct (call r (sem w)) as [[b s]|] eqn:Hc; [| done].
    intros [= <-]. by eapply Hcall.
  - intros [= <-]. unfold use_call. by destruct (acquire (sem w)).
  - unfold use_resume. destruct (calls w !! k) as [[f [p|r|r]]|]; try done.
    destruct (awaited (sem w) p); [| done]. by intros [= <-].
  - intros (f & r & b & s & _ & Hc & ->)%use_finish_inv. by eapply Hcall.
Qed.

Lemma run_capacity acts w w' :
  winv w → run acts w = Some w' → capacity (sem w') = capacity (sem w).
Proof.
  revert w. induction acts as [|a acts IH]; intros w Hw; simpl.
  - by intros [= <-].
  - destruct (step a w) as [w1|] eqn:Hstep; [| done]. intros Hrun.
    rewrite (IH w1), (step_capacity a w w1); try done. by eapply step_winv.
Qed.

(** [submitAll] makes its calls as a run of [Use] actions does. *)
Lemma submit_each_run (tasks : list F) w :
  run (Use <$> tasks) w = Some (submit_each tasks w).2 ∧
  (submit_each tasks w).1 = seq (length (calls w)) (length tasks).
Proof.
  revert w. induction tasks as [|task tasks IH]; intros w; simpl; [done |].
  unfold submit. destruct (use_call task w) as [p w1] eqn:Hcall.
  destruct (IH w1) as [Hrun Hps].
  destruct (submit_each tasks w1) as [ps w2] eqn:Hrest. simpl in *.
  split; [done |]. rewrite Hps.
  unfold use_call in Hcall. destruct (acquire (sem w)) as [q s].
  injection Hcall as <- <-. simpl. rewrite length_app. simpl.
  by rewrite Nat.add_1_r.
Qed.

End Bodies.

(** C4: after every run, the invocations of [use] that are inside their
    body (the token is acquired, [finally] has not run) are at most
    [capacity].  So it is after [submitAll] on a task pool, whatever runs
    next: at most [concurrency] tasks are in flight; and with a mutex, whose
    capacity is 1, at most one body runs at a time. *)
Theorem inside_at_most_capacity {T E F : Type} (c : number) (s0 : Semaphore)
    (acts : list (Action T E F)) (w : World T E F) :
  Sem.new c = inr s0 → run acts (start s0) = Some w →
  capacity (sem w) = to_Z c ∧
  Z.of_nat (length (inside w)) ≤ capacity (sem w) ∧
  (∀ (tasks : list F) acts' w',
     run acts' (submitAll tasks w).2 = Some w' →
     Z.of_nat (length (inside w')) ≤ concurrency w' ∧ concurrency w' = to_Z c) ∧
  (Mutex_new = inr s0 → (length (inside w) ≤ 1)%nat).
Proof.
  intros Hnew Hrun. pose proof (reach_winv _ _ _ _ Hnew Hrun) as Hw.
  assert (winv (start (T:=T) (E:=E) (F:=F) s0)) as Hw0 by by eapply start_winv, new_wf.
  assert (capacity s0 = to_Z c) as Hc0.
  { unfold Sem.new in Hnew. destruct (_ || _); [done |]. by injection Hnew as <-. }
  assert (capacity (sem w) = to_Z c) as Hc.
  { by rewrite (run_capacity _ _ _ Hw0 Hrun). }
  split_and!; [done | by apply inside_bound | |].
  - intros tasks acts' w' Hrun'. unfold submitAll in Hrun'.
    destruct (submit_each_run tasks w) as [Hsub _].
    pose proof (run_winv _ _ _ Hw Hsub) as Hw1.
    pose proof (run_winv _ _ _ Hw1 Hrun') as Hw'.
    unfold concurrency. split; [by apply inside_bound |].
    by rewrite (run_capacity _ _ _ Hw1 Hrun'), (run_capacity _ _ _ Hw Hsub).
  - intros Hm. pose proof (inside_bound _ Hw) as Hb.
    unfold Mutex_new in Hm. rewrite (run_capacity _ _ _ Hw0 Hrun) in Hb.
    assert (capacity s0 = 1) as Hone.
    { unfold Sem.new in Hm. simpl in Hm. by injection Hm as <-. }
    simpl in Hb. unfold Release in *. lia.
Qed.

Lemma inside_at_most_capacity_witness :
  let acts : list (Action unit unit nat) :=
    (Use <$> [1; 2; 3; 4; 5]%nat) ++ [Resume 0; Resume 1; Settle 1 (Returned ()); Resume 2]%nat in
  ∃ w, run acts (start (mkSemaphore 2 0 [] [] 0 [])) = Some w ∧
       inside w = [0; 2]%nat ∧
       Z.of_nat (length (inside w)) ≤ capacity (sem w).
Proof.
  intros acts. eexists. split; [vm_compute; reflexivity |]. split; [reflexivity |].
  destruct (inside_at_most_capacity (of_Z 2) (mkSemaphore 2 0 [] [] 0 []) acts _ eq_refl
              ltac:(vm_compute; reflexivity)) as (_ & Hin & _).
  exact Hin.
Defined.

(** ** [use] *)

Section Use.
Context {T E F : Type}.
Implicit Types (w : World T E F) (acts : list (Action T E F)).




End Use.




(** ** [Promise.all] and [submitAll] *)

Section Aggregate.
Context {T E F : Type}.
Implicit Types (w : World T E F) (acts : list (Action T E F)).
Implicit Types (log : list (nat * Outcome T E)) (ps : list nat).

Lemma first_value_snoc (p k : nat) (o : Outcome T E) log :
  first_value p (log ++ [(k, o)])
  = match first_value p log with
    | Some v => Some v
    | None => match o with
              | Returned v => if Nat.eqb p k then Some v else None
              | Thrown _ => None
              end
    end.
Proof.
  induction log as [|[k' [v'|e']] log IH]; simpl.
  - by destruct o.
  - by destruct (Nat.eqb p k').
  - done.
Qed.

Lemma first_value_Some (p : nat) (v : T) log :
  first_value p log = Some v → (p, Returned v) ∈ log.
Proof.
  induction log as [|[k [v'|e']] log IH]; simpl; [done | |].
  - destruct (Nat.eqb_spec p k) as [->|Hne].
    + intros [= ->]. apply list_elem_of_here.
    + intros ?. apply list_elem_of_further. auto.
  - intros ?. apply list_elem_of_further. auto.
Qed.

Lemma first_value_None (p : nat) log : p ∉ log.*1 → first_value p log = None.
Proof.
  intros Hp. destruct (first_value p log) as [v|] eqn:Hv; [| done].
  destruct Hp. apply first_value_Some in Hv.
  apply list_elem_of_fmap. by exists (p, Returned v).
Qed.

Lemma first_value_of (p : nat) (v : T) log :
  NoDup log.*1 → (p, Returned v) ∈ log → first_value p log = Some v.
Proof.
  induction log as [|[k o] log IH]; simpl; [by intros _ ?%elem_of_nil |].
  intros [Hk Hnd]%NoDup_cons [[= <- <-]|Hin]%elem_of_cons.
  - by rewrite Nat.eqb_refl.
  - assert (p ≠ k) as Hne.
    { intros ->. apply Hk. apply list_elem_of_fmap. by exists (k, Returned v). }
    destruct o; [| by auto]. destruct (Nat.eqb_spec p k); [done | by auto].
Qed.

Lemma complete_start (sl : list (option T)) (cur : Settlement T E) :
  cur = complete sl Waiting → ∀ sl' : list (option T),
  (is_Some (mapM id sl) → sl' = sl) → complete sl' cur = complete sl' Waiting.
Proof.
  intros -> sl' Hsame. unfold complete at 2.
  destruct (mapM id sl) as [vs|] eqn:Hsl; [| done].
  rewrite Hsame by done. unfold complete. by rewrite Hsl.
Qed.

(** While no promise of the list has rejected, the slots hold the values
    gathered so far, and the result is fulfilled as soon as none is
    empty. *)
Lemma all_quiet ps log :
  no_throw ps log →
  foldl (all_react ps) (all_start ps) log
  = mkAll ((λ p, first_value p log) <$> ps)
      (complete ((λ p, first_value p log) <$> ps) Waiting).
Proof.
  induction log as [|[k o] log IH] using rev_ind; intros Hq; [done |].
  rewrite foldl_snoc, IH.
  2:{ intros p e Hp Hin. apply (Hq p e Hp). apply elem_of_app. by left. }
  destruct o as [v|e]; simpl.
  - assert (zip_with (fill k v) ps ((λ p, first_value p log) <$> ps)
            = (λ p, first_value p (log ++ [(k, Returned v)])) <$> ps) as ->.
    { rewrite zip_with_fmap_r, zip_with_diag. apply list_fmap_ext.
      intros i p _. rewrite first_value_snoc. unfold fill.
      by destruct (first_value p log). }
    f_equal. eapply complete_start; [done |].
    intros Hsome%mapM_is_Some_1. apply list_fmap_ext. intros i p Hi.
    rewrite Forall_fmap in Hsome. rewrite Forall_forall in Hsome.
    destruct (Hsome p) as [x Hx]; [by eapply list_elem_of_lookup_2 |].
    simpl in Hx. by rewrite first_value_snoc, Hx.
  - case_bool_decide as Hk.
    { destruct (Hq k e Hk). apply elem_of_app. right. apply list_elem_of_here. }
    f_equal; [apply list_fmap_ext | f_equal; apply list_fmap_ext];
      intros i p _; rewrite first_value_snoc; by destruct (first_value p log).
Qed.

Lemma react_settled ps (a : All T E) (ev : nat * Outcome T E) :
  result a ≠ Waiting → result (all_react ps a ev) = result a.
Proof.
  intros Hne. destruct ev as [k [v|e]]; simpl.
  - unfold complete. destruct (mapM id _); [| done]. by destruct (result a).
  - case_bool_decide; [| done]. simpl. by destruct (result a).
Qed.

Lemma fold_settled ps (a : All T E) log :
  result a ≠ Waiting → result (foldl (all_react ps) a log) = result a.
Proof.
  revert a. induction log as [|ev log IH]; intros a Hne; simpl; [done |].
  rewrite IH; rewrite react_settled; done.
Qed.

Lemma Promise_all_fulfilled ps log (vs : list T) :
  no_throw ps log → Forall2 (λ p v, first_value p log = Some v) ps vs →
  Promise_all ps log = AllFulfilled vs.
Proof.
  intros Hq Hvs. unfold Promise_all. rewrite all_quiet by done. simpl.
  unfold complete.
  assert (mapM id ((λ p, first_value p log) <$> ps) = Some vs) as ->; [| done].
  apply mapM_Some_2. by apply Forall2_fmap_l.
Qed.

Lemma Promise_all_rejected ps (l1 l2 : list (nat * Outcome T E)) (k : nat) (e : E) :
  k ∈ ps → no_throw ps l1 → first_value k l1 = None →
  Promise_all ps (l1 ++ (k, Thrown e) :: l2) = AllRejected e.
Proof.
  intros Hk Hq Hnone. unfold Promise_all. rewrite foldl_app. simpl.
  rewrite fold_settled; rewrite all_quiet by done; simpl;
    rewrite bool_decide_eq_true_2 by done; simpl; unfold complete;
    (assert (mapM id ((λ p, first_value p l1) <$> ps) = None) as ->;
     [| done]).
  all: apply mapM_None_2, Exists_exists; exists None; split; [| done].
  all: apply list_elem_of_fmap; by exists k.
Qed.

Lemma first_throw ps log :
  (∃ p e, p ∈ ps ∧ (p, Thrown e) ∈ log) →
  ∃ l1 k e l2, log = l1 ++ (k, Thrown e) :: l2 ∧ k ∈ ps ∧ no_throw ps l1.
Proof.
  induction log as [|[k o] log IH]; intros (p & e & Hp & Hin).
  { by apply elem_of_nil in Hin. }
  destruct o as [v|e'].
  - apply elem_of_cons in Hin as [[=]|Hin].
    destruct IH as (l1 & k' & e'' & l2 & -> & Hk' & Hq); [by eauto |].
    exists ((k, Returned v) :: l1), k', e'', l2. split_and!; [done | done |].
    intros q x Hq' [[=]|?]%elem_of_cons. by eapply Hq.
  - destruct (decide (k ∈ ps)) as [Hk|Hk].
    + exists [], k, e', log. split_and!; [done | done |].
      by intros q x _ ?%elem_of_nil.
    + apply elem_of_cons in Hin as [[= -> ->]|Hin]; [done |].
      destruct IH as (l1 & k' & e'' & l2 & -> & Hk' & Hq); [by eauto |].
      exists ((k, Thrown e') :: l1), k', e'', l2. split_and!; [done | done |].
      intros q x Hq' [[= -> ->]|?]%elem_of_cons; [done |]. by eapply Hq.
Qed.

Lemma step_fn (a : Action T E F) w w' (k : nat) (i : Invocation F) :
  step a w = Some w' → calls w !! k = Some i →
  ∃ i', calls w' !! k = Some i' ∧ fn i' = fn i.
Proof.
  intros Hstep Hk.
  assert (∀ k' j, calls w !! k' = Some j → fn j = fn i ∨ k' ≠ k) as Hsame.
  { intros k' j Hj. destruct (decide (k' = k)) as [->|]; [left | by right].
    congruence. }
  assert (∀ k' j j', calls w !! k' = Some j → fn j' = fn j →
            ∃ i', <[k' := j']> (calls w) !! k = Some i' ∧ fn i' = fn i) as Hins.
  { intros k' j j' Hj Hfn. destruct (decide (k' = k)) as [->|Hne].
    - exists j'. split; [by apply list_lookup_insert_eq, lookup_lt_Some with i |].
      rewrite Hfn. congruence.
    - exists i. by rewrite list_lookup_insert_ne. }
  destruct a as [| |r|f|k'|k' o]; simpl in Hstep.
  - injection Hstep as <-. by exists i.
  - injection Hstep as <-. by exists i.
  - case_bool_decide; [done |].
    destruct (call r (sem w)) as [[b s]|]; [| done]. injection Hstep as <-. by exists i.
  - injection Hstep as <-. unfold use_call. destruct (acquire (sem w)). simpl.
    exists i. split; [by apply lookup_app_l_Some | done].
  - unfold use_resume in Hstep.
    destruct (calls w !! k') as [[f [p|r|r]]|] eqn:Hk'; try done.
    destruct (awaited (sem w) p); [| done]. injection Hstep as <-. simpl.
    by eapply Hins.
  - apply use_finish_inv in Hstep as (f & r & b & s & Hk' & _ & ->). simpl.
    by eapply Hins.
Qed.

Lemma run_fn acts w w' (k : nat) (i : Invocation F) :
  run acts w = Some w' → calls w !! k = Some i →
  ∃ i', calls w' !! k = Some i' ∧ fn i' = fn i.
Proof.
  revert w i. induction acts as [|a acts IH]; intros w i; simpl.
  - intros [= <-] ?. by exists i.
  - destruct (step a w) as [w1|] eqn:Hstep; [| done]. intros Hrun Hk.
    destruct (step_fn _ _ _ _ _ Hstep Hk) as (i1 & Hk1 & Hfn1).
    destruct (IH _ _ Hrun Hk1) as (i' & Hk' & Hfn'). exists i'. split; [done |].
    congruence.
Qed.

Lemma submit_each_fn (tasks : list F) w (n : nat) (task : F) :
  tasks !! n = Some task →
  ∃ ph, calls (submit_each tasks w).2 !! (length (calls w) + n)%nat
        = Some (mkInvocation task ph).
Proof.
  revert w n. induction tasks as [|t tasks IH]; intros w n; simpl; [done |].
  unfold submit. destruct (use_call t w) as [p w1] eqn:Hcall.
  destruct (submit_each tasks w1) as [ps w2] eqn:Hrest. simpl.
  assert (calls w1 = calls w ++ [mkInvocation t (Acquiring (acquire (sem w)).1)])
    as Hcalls.
  { unfold use_call in Hcall. destruct (acquire (sem w)). by injection Hcall as <- <-. }
  destruct n as [|n]; simpl.
  - intros [= ->].
    destruct (submit_each_run tasks w1) as [Hrun _]. rewrite Hrest in Hrun.
    destruct (run_fn _ _ _ (length (calls w))
                (mkInvocation task (Acquiring (acquire (sem w)).1)) Hrun)
      as ([f' ph] & Hk & Hfn).
    { rewrite Hcalls. by apply list_lookup_middle. }
    simpl in *. subst f'. exists ph. by rewrite Nat.add_0_r.
  - intros Hn. specialize (IH w1 n Hn). rewrite Hrest in IH. simpl in IH.
    rewrite Hcalls, length_app in IH. simpl in IH.
    by replace (length (calls w) + S n)%nat with (length (calls w) + 1 + n)%nat by lia.
Qed.

End Aggregate.

Section Aggregate_world.
Context {T E F : Type}.
Implicit Types (w : World T E F) (acts : list (Action T E F)).
Implicit Types (log : list (nat * Outcome T E)) (ps : list nat).

Lemma Forall2_choice {A B : Type} (P : A → B → Prop) (l : list A) :
  (∀ x, x ∈ l → ∃ y, P x y) → ∃ k, Forall2 P l k.
Proof.
  induction l as [|x l IH]; intros Hall; [by exists [] |].
  destruct (Hall x) as [y Hy]; [apply list_elem_of_here |].
  destruct IH as [k Hk]; [intros z Hz; apply Hall; by apply list_elem_of_further |].
  exists (y :: k). by constructor.
Qed.

Lemma settled_once log (k : nat) (o o' : Outcome T E) :
  NoDup log.*1 → (k, o) ∈ log → (k, o') ∈ log → o = o'.
Proof.
  induction log as [|[k1 o1] log IH]; simpl; [by intros _ ?%elem_of_nil |].
  intros [Hk Hnd]%NoDup_cons [?|H1]%elem_of_cons [?|H2]%elem_of_cons; simplify_eq.
  - done.
  - destruct Hk. apply list_elem_of_fmap. by exists (k1, o').
  - destruct Hk. apply list_elem_of_fmap. by exists (k1, o).
  - auto.
Qed.

Lemma all_returned ps log :
  NoDup log.*1 → (∀ p, p ∈ ps → ∃ v, (p, Returned v) ∈ log) →
  ∃ vs, Promise_all ps log = AllFulfilled vs ∧
        Forall2 (λ p v, (p, Returned v) ∈ log) ps vs.
Proof.
  intros Hnd Hall. destruct (Forall2_choice _ _ Hall) as [vs Hvs].
  exists vs. split; [| done]. apply Promise_all_fulfilled.
  - intros p e Hp Hin. destruct (Hall p Hp) as [v Hv].
    by pose proof (settled_once _ _ _ _ Hnd Hin Hv).
  - eapply Forall2_impl; [exact Hvs |]. intros p v Hv. by apply first_value_of.
Qed.

Lemma one_thrown ps log (p : nat) (e : E) :
  NoDup log.*1 → p ∈ ps → (p, Thrown e) ∈ log →
  ∃ l1 k e' l2, log = l1 ++ (k, Thrown e') :: l2 ∧ k ∈ ps ∧ no_throw ps l1 ∧
                Promise_all ps log = AllRejected e'.
Proof.
  intros Hnd Hp Hin.
  destruct (first_throw ps log) as (l1 & k & e' & l2 & -> & Hk & Hq); [by eauto |].
  exists l1, k, e', l2. split_and!; try done.
  apply Promise_all_rejected; [done | done |]. apply first_value_None.
  rewrite fmap_app in Hnd. apply NoDup_app in Hnd as (_ & Hdisj & _).
  intros Hk1. apply (Hdisj k Hk1). simpl. apply list_elem_of_here.
Qed.

End Aggregate_world.

(** C7: [submitAll] calls [submit] on the tasks in the order of the list,
    one invocation of [use] per task.  Whatever runs afterwards and in
    whatever order the tasks end: once all have returned, the result is
    fulfilled with their values in the order of the list; if a task has
    thrown, the result is rejected with the error of the task of the list
    that threw first, which is that task's error when it is the only one to
    throw.  On the empty list the result is fulfilled with the empty list and
    nothing changes, the gauge [tasks] included. *)
Theorem submitAll_spec {T E F : Type} (c : number) (s0 : Semaphore)
    (acts : list (Action T E F)) (w : World T E F) (tasks : list F) :
  Sem.new c = inr s0 → run acts (start s0) = Some w →
  let ps := (submitAll tasks w).1 in
  let w1 := (submitAll tasks w).2 in
  ps = seq (length (calls w)) (length tasks) ∧
  (∀ acts' w2, run acts' w1 = Some w2 →
     (∀ n task, tasks !! n = Some task →
        ∃ p ph, ps !! n = Some p ∧ calls w2 !! p = Some (mkInvocation task ph)) ∧
     ((∀ p, p ∈ ps → ∃ v, (p, Returned v) ∈ settled w2) →
        ∃ vs, submitAll_result ps w2 = AllFulfilled vs ∧
              Forall2 (λ p v, (p, Returned v) ∈ settled w2) ps vs) ∧
     (∀ p e, p ∈ ps → (p, Thrown e) ∈ settled w2 →
        ∃ l1 k e' l2,
          settled w2 = l1 ++ (k, Thrown e') :: l2 ∧ k ∈ ps ∧ no_throw ps l1 ∧
          submitAll_result ps w2 = AllRejected e' ∧
          ((∀ q x, q ∈ ps → (q, Thrown x) ∈ settled w2 → q = p) → e' = e))) ∧
  (tasks = [] →
     submitAll tasks w = ([], w) ∧ Async.tasks w1 = Async.tasks w ∧
     submitAll_result ps w1 = AllFulfilled []).
Proof.
  intros Hnew Hrun ps w1. pose proof (reach_winv _ _ _ _ Hnew Hrun) as Hw.
  destruct (submit_each_run tasks w) as [Hsub Hps].
  pose proof (run_winv _ _ _ Hw Hsub) as Hw1.
  split_and!; [done | |].
  - intros acts' w2 Hrun2. pose proof (run_winv _ _ _ Hw1 Hrun2) as Hw2.
    pose proof (winv_settled _ Hw2) as Hnd. split_and!.
    + intros n task Hn.
      destruct (submit_each_fn tasks w n task Hn) as [ph1 Hk1].
      destruct (run_fn _ _ _ _ _ Hrun2 Hk1) as ([f' ph] & Hk2 & Hfn).
      simpl in Hfn. subst f'. exists (length (calls w) + n)%nat, ph. split; [| done].
      unfold ps, submitAll. rewrite Hps. apply lookup_seq. split; [done |].
      by eapply lookup_lt_Some.
    + intros Hall. by apply all_returned.
    + intros p e Hp Hin.
      destruct (one_thrown ps _ p e Hnd Hp Hin) as (l1 & k & e' & l2 & Hlog & Hk & Hq & Hres).
      exists l1, k, e', l2. split_and!; try done.
      intros Hone.
      assert ((k, Thrown e') ∈ settled w2) as Hin'.
      { rewrite Hlog. apply elem_of_app. right. apply list_elem_of_here. }
      assert (k = p) as -> by by eapply Hone.
      pose proof (settled_once _ _ _ _ Hnd Hin Hin') as Heq. by injection Heq.
  - intros ->. split_and!; [done | done |].
    unfold submitAll_result, Promise_all. by rewrite fold_settled.
Qed.

Lemma submitAll_spec_witness :
  let s0 := mkSemaphore 2 0 [] [] 0 [] in
  let w : World nat string nat := start s0 in
  let later : list (Action nat string nat) :=
    [Resume 1; Resume 0; Settle 1 (Returned 20); Resume 2; Settle 2 (Returned 30);
     Settle 0 (Returned 10)]%nat in
  (submitAll [1; 2; 3]%nat w).1 = [0; 1; 2]%nat ∧
  ∃ w2, run later (submitAll [1; 2; 3]%nat w).2 = Some w2 ∧
        settled w2 = [(1, Returned 20); (2, Returned 30); (0, Returned 10)]%nat ∧
        ∃ vs, submitAll_result [0; 1; 2]%nat w2 = AllFulfilled vs ∧
              Forall2 (λ p v, (p, Returned v) ∈ settled w2) [0; 1; 2]%nat vs.
Proof.
  intros s0 w later. split; [reflexivity |].
  eexists. split; [vm_compute; reflexivity |]. split; [reflexivity |].
  destruct (submitAll_spec (of_Z 2) s0 [] w [1; 2; 3]%nat eq_refl eq_refl)
    as (_ & Hlater & _).
  destruct (Hlater later _ ltac:(vm_compute; reflexivity)) as (_ & Hok & _).
  apply Hok.
  intros p Hp. repeat (apply elem_of_cons in Hp as [->|Hp]);
    [exists 10%nat | exists 20%nat | exists 30%nat | by apply elem_of_nil in Hp];
    repeat first [apply list_elem_of_here | apply list_elem_of_further].
Defined.

(** * Further properties of the code *)

Import Batch.

(** ** More on the semaphore *)

Section Semaphore_runs.
Context {T E F : Type}.
Implicit Types (w : World T E F) (acts : list (Action T E F)).

(** What every call keeps, every run keeps. *)
Lemma run_sem_ind (P : Semaphore → Prop) :
  (∀ s, wf s → P s → P (tryAcquire s).2) →
  (∀ s, wf s → P s → P (acquire s).2) →
  (∀ r s b s', wf s → P s → call r s = Some (b, s') → P s') →
  ∀ acts w w', winv w → P (sem w) → run acts w = Some w' → P (sem w').
Proof.
  intros Htry Hacq Hcall acts. induction acts as [|a acts IH]; intros w w' Hw HP; simpl.
  - by intros [= <-].
  - destruct (step a w) as [w1|] eqn:Hstep; [| done].
    apply IH; [by eapply step_winv |].
    pose proof (winv_sem _ Hw) as Hs. destruct a as [| |r|f|k|k o]; simpl in Hstep.
    + injection Hstep as <-. by apply Htry.
    + injection Hstep as <-. by apply Hacq.
    + case_bool_decide; [done |].
      destruct (call r (sem w)) as [[b s]|] eqn:Hc; [| done].
      injection Hstep as <-. by eapply Hcall.
    + injection Hstep as <-. unfold use_call.
      pose proof (Hacq _ Hs HP). by destruct (acquire (sem w)).
    + unfold use_resume in Hstep. destruct (calls w !! k) as [[f [p|r|r]]|]; try done.
      destruct (awaited (sem w) p); [| done]. by injection Hstep as <-.
    + apply use_finish_inv in Hstep as (f & r & b & s & _ & Hc & ->). by eapply Hcall.
Qed.

Lemma reach_capacity (c : number) (s0 : Semaphore) acts w :
  Sem.new c = inr s0 → run acts (start s0) = Some w → capacity (sem w) = to_Z c.
Proof.
  intros Hnew Hrun.
  assert (winv (start (T:=T) (E:=E) (F:=F) s0)) as Hw0 by by eapply start_winv, new_wf.
  rewrite (run_capacity _ _ _ Hw0 Hrun). simpl.
  unfold Sem.new in Hnew. destruct (_ || _); [done |]. by injection Hnew as <-.
Qed.

End Semaphore_runs.

(** X1: on a semaphore whose capacity is at most 2^53 (where the
    subtraction of the getter is exact), after every run [permits] is
    between 0 and [capacity] and counts the tokens that can still be handed
    out: [capacity] less the outstanding ones.  [tryAcquire] returns [null]
    exactly when [permits] is 0, and nobody is queued while [permits] is
    positive. *)
Theorem permits_account {T E F : Type} (c : number) (s0 : Semaphore)
    (acts : list (Action T E F)) (w : World T E F) :
  Sem.new c = inr s0 → to_Z c ≤ 2 ^ 53 → run acts (start s0) = Some w →
  0 ≤ permits (sem w) ≤ capacity (sem w) ∧
  permits (sem w) = to_Z c - Z.of_nat (length (outstanding (sem w))) ∧
  ((tryAcquire (sem w)).1 = None ↔ permits (sem w) = 0) ∧
  (0 < permits (sem w) → queue (sem w) = []).
Proof.
  intros Hnew _ Hrun. pose proof (reach_winv _ _ _ _ Hnew Hrun) as Hw.
  pose proof (winv_sem _ Hw) as Hs.
  pose proof (reach_capacity _ _ _ _ Hnew Hrun) as Hcap.
  pose proof (wf_bounds _ Hs) as Hb. pose proof (wf_tokens _ Hs) as Ht.
  unfold permits. split; [lia |]. split; [unfold Release in *; lia |]. split.
  - unfold tryAcquire. destruct (Z.ltb_spec (count (sem w)) (capacity (sem w))); simpl.
    + split; [done | lia].
    + split; [lia | done].
  - intros Hpos. destruct (queue (sem w)) eqn:Hq; [done |].
    pose proof (wf_full _ Hs) as Hfull. rewrite Hq in Hfull.
    specialize (Hfull ltac:(done)). lia.
Qed.

Lemma permits_account_witness :
  let acts : list (Action unit unit unit) := [Acquire; Use (); TryAcquire; Call 0%nat] in
  ∃ w, run acts (start (mkSemaphore 3 0 [] [] 0 [])) = Some w ∧
       permits (sem w) = 1 ∧ 0 ≤ permits (sem w) ≤ capacity (sem w).
Proof.
  intros acts. eexists. split; [vm_compute; reflexivity |]. split; [reflexivity |].
  destruct (permits_account (of_Z 3) (mkSemaphore 3 0 [] [] 0 []) acts _ eq_refl
              ltac:(vm_compute; discriminate) ltac:(vm_compute; reflexivity)) as (Hb & _).
  exact Hb.
Defined.

Section Waiters.
Context {T E F : Type}.
Implicit Types (w : World T E F) (acts : list (Action T E F)).

Lemma outstanding_nonempty (s : Semaphore) :
  wf s → 0 < count s → ∃ r, r ∈ outstanding s.
Proof.
  intros Hs Hpos. pose proof (wf_tokens _ Hs) as Ht.
  destruct (outstanding s) as [|r l]; [simpl in Ht; lia |].
  exists r. apply list_elem_of_here.
Qed.

Lemma call_outstanding (r : Release) (s : Semaphore) :
  wf s → r ∈ outstanding s → ∃ s', call r s = Some (true, s').
Proof.
  intros Hs Hr%elem_of_outstanding.
  destruct (call r s) as [[b s']|] eqn:Hcall.
  - pose proof (call_cases _ _ _ _ Hs Hcall) as Hc.
    inversion Hc; subst; [congruence | by eexists | by eexists].
  - unfold call in Hcall. rewrite Hr in Hcall. simpl in Hcall.
    by destruct (count s <=? 0).
Qed.

Lemma run_granted_once acts w w' :
  winv w → granted_once (sem w) → run acts w = Some w' → granted_once (sem w').
Proof.
  apply run_sem_ind.
  - intros s _ HP. unfold tryAcquire. by destruct (count s <? capacity s).
  - intros s _ HP. unfold acquire. by destruct (count s <? capacity s).
  - intros r s b s' Hs [Hf Ht] Hcall. pose proof (call_cases _ _ _ _ Hs Hcall) as Hc.
    inversion Hc as [| |f q Hr Hq Hnone]; subst; [done | done |].
    split; simpl; rewrite fmap_app; apply NoDup_app; (split_and!; [done | | apply NoDup_singleton]).
    + intros x Hx ->%list_elem_of_singleton. by apply value_of_None in Hnone.
    + intros x ([g y] & Hx & Hin)%list_elem_of_fmap Hnew%list_elem_of_singleton.
      pose proof (wf_granted _ Hs _ _ Hin). simpl in *. lia.
Qed.

End Waiters.

(** X2: no waiter is left behind.  After every run, while somebody is
    queued all [capacity] tokens are outstanding, so there is one to call;
    and the call of any outstanding token succeeds and resolves the future
    at the head of the queue with a new, unreleased token. *)
Theorem waiter_can_be_served {T E F : Type} (c : number) (s0 : Semaphore)
    (acts : list (Action T E F)) (w : World T E F) (f : Future) (q : list Callback) :
  Sem.new c = inr s0 → run acts (start s0) = Some w →
  queue (sem w) = f :: q →
  Z.of_nat (length (outstanding (sem w))) = to_Z c ∧
  (∃ r, r ∈ outstanding (sem w)) ∧
  (∀ r, r ∈ outstanding (sem w) →
     ∃ s', call r (sem w) = Some (true, s') ∧ queue s' = q ∧
           value_of f (resolved (sem w)) = None ∧
           value_of f (resolved s') = Some (length (released (sem w))) ∧
           released s' !! length (released (sem w)) = Some false).
Proof.
  intros Hnew Hrun Hq. pose proof (reach_winv _ _ _ _ Hnew Hrun) as Hw.
  pose proof (winv_sem _ Hw) as Hs.
  pose proof (reach_capacity _ _ _ _ Hnew Hrun) as Hcap.
  assert (count (sem w) = capacity (sem w)) as Hfull.
  { apply (wf_full _ Hs). by rewrite Hq. }
  pose proof (wf_capacity _ Hs) as Hone. pose proof (wf_tokens _ Hs) as Ht.
  split; [unfold Release in *; lia |]. split.
  - apply outstanding_nonempty; [done | lia].
  - intros r Hr. destruct (call_outstanding r _ Hs Hr) as [s' Hcall].
    exists s'. split; [done |].
    pose proof (call_cases _ _ _ _ Hs Hcall) as Hc.
    inversion Hc as [| |f' q' Hr' Hq' Hnone]; subst; [congruence |].
    rewrite Hq in Hq'. injection Hq' as <- <-. simpl. split_and!; try done.
    + by rewrite value_of_snoc, Hnone, Nat.eqb_refl.
    + rewrite lookup_app_r by (rewrite length_insert; lia).
      by rewrite length_insert, Nat.sub_diag.
Qed.

Lemma waiter_can_be_served_witness :
  let acts : list (Action unit unit unit) := [Acquire; Use (); Acquire; Use ()] in
  ∃ w, run acts (start (mkSemaphore 2 0 [] [] 0 [])) = Some w ∧
       queue (sem w) = [0; 1]%nat ∧
       ∃ s', call 0%nat (sem w) = Some (true, s') ∧ queue s' = [1%nat].
Proof.
  intros acts. eexists. split; [vm_compute; reflexivity |]. split; [reflexivity |].
  destruct (waiter_can_be_served (of_Z 2) (mkSemaphore 2 0 [] [] 0 []) acts _ 0%nat [1%nat]
              eq_refl ltac:(vm_compute; reflexivity) eq_refl) as (_ & _ & Hserve).
  destruct (Hserve 0%nat) as (s' & Hcall & Hq & _).
  { apply elem_of_outstanding. reflexivity. }
  by exists s'.
Defined.

(** X3: after every run, no future was resolved twice and no token was
    given to two waiters; a token given to a waiter is a closure made for it
    (it exists), and a resolved future is out of the queue. *)
Theorem waiters_granted_once {T E F : Type} (c : number) (s0 : Semaphore)
    (acts : list (Action T E F)) (w : World T E F) :
  Sem.new c = inr s0 → run acts (start s0) = Some w →
  NoDup (resolved (sem w)).*1 ∧ NoDup (resolved (sem w)).*2 ∧
  (∀ f r, (f, r) ∈ resolved (sem w) →
     value_of f (resolved (sem w)) = Some r ∧
     is_Some (released (sem w) !! r) ∧ f ∉ queue (sem w)).
Proof.
  intros Hnew Hrun. pose proof (reach_winv _ _ _ _ Hnew Hrun) as Hw.
  pose proof (winv_sem _ Hw) as Hs.
  assert (granted_once (sem w)) as [Hf Ht].
  { eapply run_granted_once; [| | exact Hrun].
    - by eapply start_winv, new_wf.
    - unfold Sem.new in Hnew. destruct (_ || _); [done |]. injection Hnew as <-.
      split; constructor. }
  split_and!; [done | done |]. intros f r Hin. split_and!.
  - destruct (value_of f (resolved (sem w))) as [r'|] eqn:Hv.
    + apply value_of_Some in Hv. f_equal.
      clear -Hf Hin Hv. induction (resolved (sem w)) as [|[g y] l IH]; simpl in *.
      { by apply elem_of_nil in Hin. }
      apply NoDup_cons in Hf as [Hg Hnd].
      apply elem_of_cons in Hin as [?|Hin], Hv as [?|Hv]; simplify_eq; try done.
      * destruct Hg. apply list_elem_of_fmap. by exists (g, r').
      * destruct Hg. apply list_elem_of_fmap. by exists (g, r).
      * auto.
    + apply value_of_None in Hv. destruct Hv. apply list_elem_of_fmap. by exists (f, r).
  - apply lookup_lt_is_Some. by eapply (wf_granted _ Hs).
  - pose proof (NoDup_seq 0 (futures (sem w))) as Hnd. rewrite <- (wf_fifo _ Hs) in Hnd.
    apply NoDup_app in Hnd as (_ & Hdisj & _). apply Hdisj.
    apply list_elem_of_fmap. by exists (f, r).
Qed.

Lemma waiters_granted_once_witness :
  let acts : list (Action unit unit unit) :=
    [Acquire; Acquire; Acquire; Call 0; Call 1]%nat in
  ∃ w, run acts (start (mkSemaphore 1 0 [] [] 0 [])) = Some w ∧
       resolved (sem w) = [(0, 1); (1, 2)]%nat ∧
       NoDup (resolved (sem w)).*2.
Proof.
  intros acts. eexists. split; [vm_compute; reflexivity |]. split; [reflexivity |].
  destruct (waiters_granted_once (of_Z 1) (mkSemaphore 1 0 [] [] 0 []) acts _ eq_refl
              ltac:(vm_compute; reflexivity)) as (_ & Ht & _).
  exact Ht.
Defined.

Section Batches.

Lemma call_each_spec (rs : list Release) (s : Semaphore) :
  wf s → NoDup rs → (∀ r, r ∈ rs → released s !! r = Some false) →
  ∃ s', call_each rs s = Some (replicate (length rs) true, s') ∧
        queue s' = drop (length rs) (queue s) ∧
        (resolved s').*1 = (resolved s).*1 ++ take (length rs) (queue s) ∧
        count s' = count s - Z.of_nat (length rs - length (queue s)).
Proof.
  revert s. induction rs as [|r rs IH]; intros s Hs Hnd Hall; simpl.
  { exists s. rewrite drop_0, take_0, app_nil_r. split_and!; try done. lia. }
  apply NoDup_cons in Hnd as [Hr Hnd].
  assert (released s !! r = Some false) as Hflag by (apply Hall, list_elem_of_here).
  destruct (call_outstanding r s Hs) as [s1 Hcall]; [by apply elem_of_outstanding |].
  pose proof (call_wf _ _ _ _ Hs Hcall) as Hs1.
  pose proof (call_evolves _ _ _ _ Hs Hcall) as Hev.
  destruct (IH s1 Hs1 Hnd) as (s' & Heach & Hq & Hres & Hcount).
  { intros x Hx. apply (ev_flags _ _ _ Hev); [by apply Hall, list_elem_of_further |].
    intros [= ->]. done. }
  exists s'. rewrite Hcall, Heach. split; [done |].
  pose proof (call_cases _ _ _ _ Hs Hcall) as Hc.
  inversion Hc as [|Hr' Hq0|f q Hr' Hq0 Hnone]; subst;
    simpl in *; rewrite Hq0 in *; simpl in *.
  - rewrite drop_nil in Hq. rewrite take_nil, app_nil_r in Hres.
    rewrite app_nil_r. split_and!; [done | done | lia].
  - split_and!; [done | | lia].
    rewrite Hres, fmap_app, <- app_assoc. done.
Qed.

End Batches.

(** X4: several releases in a row serve the queue from its head, one waiter
    per release.  After every run, calling [n] distinct outstanding tokens
    one after the other succeeds [n] times, resolves the first [n] queued
    futures in their order and leaves the others queued; [used] only goes
    down by the releases that found nobody waiting. *)
Theorem releases_serve_in_order {T E F : Type} (c : number) (s0 : Semaphore)
    (acts : list (Action T E F)) (w : World T E F) (rs : list Release) :
  Sem.new c = inr s0 → run acts (start s0) = Some w →
  NoDup rs → (∀ r, r ∈ rs → r ∈ outstanding (sem w)) →
  ∃ s', call_each rs (sem w) = Some (replicate (length rs) true, s') ∧
        queue s' = drop (length rs) (queue (sem w)) ∧
        (resolved s').*1 = (resolved (sem w)).*1 ++ take (length rs) (queue (sem w)) ∧
        used s' = used (sem w) - Z.of_nat (length rs - length (queue (sem w))).
Proof.
  intros Hnew Hrun Hnd Hall. pose proof (reach_winv _ _ _ _ Hnew Hrun) as Hw.
  apply call_each_spec; [by apply winv_sem | done |].
  intros r Hr. by apply elem_of_outstanding, Hall.
Qed.

Lemma releases_serve_in_order_witness :
  let acts : list (Action unit unit unit) :=
    [Acquire; Acquire; Acquire; Acquire; Acquire]%nat in
  ∃ w, run acts (start (mkSemaphore 2 0 [] [] 0 [])) = Some w ∧
       queue (sem w) = [0; 1; 2]%nat ∧
       ∃ s', call_each [1; 0]%nat (sem w) = Some ([true; true], s') ∧
             queue s' = [2%nat] ∧ used s' = 2.
Proof.
  intros acts. eexists. split; [vm_compute; reflexivity |]. split; [reflexivity |].
  destruct (releases_serve_in_order (of_Z 2) (mkSemaphore 2 0 [] [] 0 []) acts _ [1; 0]%nat
              eq_refl ltac:(vm_compute; reflexivity)) as (s' & Heach & Hq & _ & Hu).
  - repeat constructor; [by intros [=]%list_elem_of_singleton | by intros ?%elem_of_nil].
  - intros r Hr. apply elem_of_outstanding.
    repeat (apply elem_of_cons in Hr as [->|Hr]); try reflexivity.
    by apply elem_of_nil in Hr.
  - exists s'. split_and!; [exact Heach | exact Hq | exact Hu].
Defined.

Import Pool.

(** ** Worlds reached through [use] only *)

Section Pool_facts.
Context {T E F : Type}.
Implicit Types (w : World T E F) (acts : list (Action T E F)) (i : Invocation F).

Lemma queued_unresolved (s : Semaphore) (f : Future) :
  wf s → f ∈ queue s → value_of f (resolved s) = None.
Proof.
  intros Hs Hf. apply value_of_None. intros Hin.
  pose proof (NoDup_seq 0 (futures s)) as Hnd. rewrite <- (wf_fifo _ Hs) in Hnd.
  apply NoDup_app in Hnd as (_ & Hdisj & _). by apply (Hdisj f).
Qed.

(** Past the first [n] invocations, an invocation is in the queue. *)
Lemma pool_waiting w (n k : nat) i :
  wf (sem w) →
  (n + length (queue (sem w)) = length (calls w))%nat →
  (∀ j f, queue (sem w) !! j = Some f →
          ∃ i, calls w !! (n + j)%nat = Some i ∧ phase i = waiting_for f) →
  calls w !! k = Some i → (n ≤ k)%nat →
  ∃ f, phase i = waiting_for f ∧ queue (sem w) !! (k - n)%nat = Some f ∧
       token (sem w) (phase i) = None.
Proof.
  intros Hs Hlen Hwait Hk Hn.
  assert (k - n < length (queue (sem w)))%nat as Hlt.
  { apply lookup_lt_Some in Hk. lia. }
  apply lookup_lt_is_Some in Hlt as [f Hf].
  destruct (Hwait _ _ Hf) as (i' & Hi' & Hph).
  replace (n + (k - n))%nat with k in Hi' by lia.
  rewrite Hk in Hi'. injection Hi' as <-.
  exists f. split_and!; [done | done |]. rewrite Hph. simpl.
  apply queued_unresolved; [done |]. by eapply list_elem_of_lookup_2.
Qed.

Lemma start_pool_inv (s : Semaphore) :
  wf s → queue s = [] → released s = [] → pool_inv (start (T:=T) (E:=E) (F:=F) s).
Proof.
  intros Hs Hq Hr. constructor; simpl.
  - by apply start_winv.
  - rewrite Hr. by intros r [=].
  - exists 0%nat. rewrite Hq. split_and!; [done | by intros k i [=] | by intros j f [=]].
Qed.

Lemma use_call_pool_inv w (f : F) : pool_inv w → pool_inv (use_call f w).2.
Proof.
  intros [Hw Hhold (n & Hlen & Htok & Hwait)].
  pose proof (use_call_winv w f Hw) as Hw1. pose proof (winv_sem _ Hw) as Hs.
  unfold use_call, acquire in *.
  destruct (Z.ltb_spec (count (sem w)) (capacity (sem w))) as [Hlt|Hge]; simpl in *.
  - assert (queue (sem w) = []) as Hq.
    { destruct (queue (sem w)) eqn:Hq; [done |].
      pose proof (wf_full _ Hs) as Hfull. rewrite Hq in Hfull.
      specialize (Hfull ltac:(done)). lia. }
    rewrite Hq in *. simpl in *. constructor; simpl; [done | |].
    + intros r [Hr | [Hle Hr]]%lookup_app_Some.
      * destruct (Hhold r Hr) as (k & i & Hk & Ht & Hl).
        exists k, i. split_and!; [by apply lookup_app_l_Some | | done].
        by rewrite (token_resolved (sem w)).
      * apply list_lookup_singleton_Some in Hr as [Hr _].
        assert (r = length (released (sem w))) as -> by lia.
        exists (length (calls w)), (mkInvocation f (Acquiring (Fulfilled (length (released (sem w)))))).
        split_and!; [by apply list_lookup_middle | done | done].
    + exists (S n). rewrite length_app. simpl. rewrite Hq. simpl.
      split_and!; [lia | | by intros j g [=]].
      intros k i [Hk | [_ Hk]]%lookup_app_Some _.
      * unfold has_token. rewrite (token_resolved (sem w)) by done.
        apply (Htok k i Hk). apply lookup_lt_Some in Hk. lia.
      * apply list_lookup_singleton_Some in Hk as [_ <-]. by eexists.
  - constructor; simpl; [done | |].
    + intros r Hr. destruct (Hhold r Hr) as (k & i & Hk & Ht & Hl).
      exists k, i. split_and!; [by apply lookup_app_l_Some | | done].
      by rewrite (token_resolved (sem w)).
    + exists n. rewrite !length_app. simpl. split_and!; [lia | |].
      * intros k i Hk Hkn. rewrite lookup_app_l in Hk by lia.
        unfold has_token. rewrite (token_resolved (sem w)) by done. by eapply Htok.
      * intros j g [Hj | [Hle Hj]]%lookup_app_Some.
        -- destruct (Hwait j g Hj) as (i & Hi & Hph).
           exists i. split; [by apply lookup_app_l_Some | done].
        -- apply list_lookup_singleton_Some in Hj as [Hj <-].
           exists (mkInvocation f (Acquiring (Deferred (futures (sem w))))).
           split; [| reflexivity]. unfold Callback, Future in *.
           replace (n + j)%nat with (length (calls w)) by lia.
           by apply list_lookup_middle.
Qed.

Lemma use_resume_pool_inv w (k : nat) w' :
  pool_inv w → use_resume k w = Some w' → pool_inv w'.
Proof.
  intros [Hw Hhold (n & Hlen & Htok & Hwait)] Hstep.
  pose proof (use_resume_winv _ _ _ Hw Hstep) as Hw'. pose proof (winv_sem _ Hw) as Hs.
  unfold use_resume in Hstep.
  destruct (calls w !! k) as [[f [p|r|r]]|] eqn:Hk; try done.
  destruct (awaited (sem w) p) as [r|] eqn:Hp; [| done]. injection Hstep as <-.
  assert (k < n)%nat as Hkn.
  { destruct (decide (k < n)%nat); [done |].
    destruct (pool_waiting w n k _ Hs Hlen Hwait Hk) as (g & _ & _ & Hnone); [lia |].
    simpl in Hnone. congruence. }
  assert (k < length (calls w))%nat as Hkl by by eapply lookup_lt_Some.
  constructor; simpl; [done | |].
  - intros r' Hr'. destruct (Hhold r' Hr') as (k' & i & Hk' & Ht & Hl).
    destruct (decide (k' = k)) as [->|Hne].
    + rewrite Hk in Hk'. injection Hk' as <-. simpl in Ht.
      exists k, (mkInvocation f (InBody r)). rewrite list_lookup_insert_eq by done.
      split_and!; [done | simpl; congruence | done].
    + exists k', i. by rewrite list_lookup_insert_ne.
  - exists n. rewrite length_insert. split_and!; [done | |].
    + intros k' i [(<- & <- & _) | (Hne & Hk')]%list_lookup_insert_Some Hlt.
      * by eexists.
      * by eapply Htok.
    + intros j g Hj. destruct (Hwait j g Hj) as (i & Hi & Hph).
      exists i. split; [| done]. rewrite list_lookup_insert_ne by lia. done.
Qed.

Lemma use_finish_pool_inv w (k : nat) (o : Outcome T E) w' :
  pool_inv w → use_finish k o w = Some w' → pool_inv w'.
Proof.
  intros [Hw Hhold (n & Hlen & Htok & Hwait)] Hstep.
  pose proof (use_finish_winv _ _ _ _ Hw Hstep) as Hw'. pose proof (winv_sem _ Hw) as Hs.
  apply use_finish_inv in Hstep as (f & r & b & s & Hk & Hcall & ->).
  assert (k < n)%nat as Hkn.
  { destruct (decide (k < n)%nat); [done |].
    destruct (pool_waiting w n k _ Hs Hlen Hwait Hk) as (g & Hph & _); [lia |].
    simpl in Hph. discriminate. }
  assert (k < length (calls w))%nat as Hkl by by eapply lookup_lt_Some.
  assert (released (sem w) !! r = Some false) as Hr.
  { eapply (winv_live _ Hw); [exact Hk | done | done]. }
  pose proof (call_evolves _ _ _ _ Hs Hcall) as Hev.
  assert (∀ r', r' ≠ r → released (sem w) !! r' = Some false →
            ∃ k' i, <[k := mkInvocation f (Completed r)]> (calls w) !! k' = Some i ∧
                    token s (phase i) = Some r' ∧ live (phase i)) as Hold.
  { intros r' Hne Hr'. destruct (Hhold r' Hr') as (k' & i & Hk' & Ht & Hl).
    assert (k' ≠ k) as Hkk.
    { intros ->. rewrite Hk in Hk'. injection Hk' as <-. simpl in Ht. congruence. }
    exists k', i. rewrite list_lookup_insert_ne by done.
    split_and!; [done | by eapply token_keeps | done]. }
  pose proof (call_cases _ _ _ _ Hs Hcall) as Hc.
  inversion Hc as [Hr'|Hr' Hq|g q Hr' Hq Hnone]; subst; [congruence | |].
  - constructor; simpl in *; [done | |].
    + intros r' Hr2. destruct (decide (r' = r)) as [->|Hne].
      { rewrite list_lookup_insert_eq in Hr2 by by eapply lookup_lt_Some. done. }
      rewrite list_lookup_insert_ne in Hr2 by done. by apply Hold.
    + exists n. rewrite length_insert, Hq in *. simpl in *.
      split_and!; [done | | by intros j g [=]].
      intros k' i [(<- & <- & _) | (Hne & Hk')]%list_lookup_insert_Some Hlt.
      * by eexists.
      * apply (Htok k' i Hk' Hlt).
  - constructor; simpl in *; [done | |].
    + intros r' Hr2. destruct (decide (r' = r)) as [->|Hne].
      { rewrite lookup_app_l in Hr2 by (rewrite length_insert; by eapply lookup_lt_Some).
        rewrite list_lookup_insert_eq in Hr2 by by eapply lookup_lt_Some. done. }
      apply lookup_app_Some in Hr2 as [Hr2 | [Hle Hr2]].
      * rewrite list_lookup_insert_ne in Hr2 by done. by apply Hold.
      * apply list_lookup_singleton_Some in Hr2 as [Hr2 _].
        rewrite length_insert in *.
        assert (r' = length (released (sem w))) as -> by lia.
        destruct (Hwait 0%nat g) as (i & Hi & Hph); [by rewrite Hq |].
        rewrite Nat.add_0_r in Hi.
        exists n, i. rewrite list_lookup_insert_ne by lia.
        split_and!; [done | | by rewrite Hph].
        rewrite Hph. simpl. by rewrite value_of_snoc, Hnone, Nat.eqb_refl.
    + exists (S n). rewrite length_insert, Hq in *. simpl in *.
      split_and!; [lia | |].
      * intros k' i [(<- & <- & _) | (Hne & Hk')]%list_lookup_insert_Some Hlt.
        { by eexists. }
        destruct (decide (k' < n)%nat) as [Hlt'|Hge].
        -- destruct (Htok k' i Hk' Hlt') as [x Hx]. exists x.
           by eapply token_keeps.
        -- assert (k' = n) as -> by lia.
           destruct (Hwait 0%nat g eq_refl) as (i' & Hi' & Hph).
           rewrite Nat.add_0_r, Hk' in Hi'. injection Hi' as <-.
           unfold has_token. rewrite Hph. simpl.
           rewrite value_of_snoc, Hnone, Nat.eqb_refl. by eexists.
      * intros j g' Hj. destruct (Hwait (S j) g' Hj) as (i & Hi & Hph).
        exists i. split; [| done]. rewrite list_lookup_insert_ne by lia.
        by replace (S (n + j)) with (n + S j)%nat by lia.
Qed.

Lemma run_pool_inv acts w w' :
  forallb through_use acts = true → pool_inv w → run acts w = Some w' → pool_inv w'.
Proof.
  revert w. induction acts as [|a acts IH]; intros w Hall Hp; simpl.
  - by intros [= <-].
  - simpl in Hall. apply andb_true_iff in Hall as [Ha Hall].
    destruct (step a w) as [w1|] eqn:Hstep; [| done].
    apply IH; [done |]. destruct a as [| |r|f|k|k o]; simpl in *; try done.
    + injection Hstep as <-. by apply use_call_pool_inv.
    + by eapply use_resume_pool_inv.
    + by eapply use_finish_pool_inv.
Qed.

Lemma reach_pool_inv (c : number) (s0 : Semaphore) acts w :
  Sem.new c = inr s0 → forallb through_use acts = true →
  run acts (start s0) = Some w → pool_inv w.
Proof.
  intros Hnew Hall Hrun. eapply run_pool_inv; [done | | done].
  pose proof (new_wf _ _ Hnew) as Hs.
  unfold Sem.new in Hnew. destruct (_ || _); [done |]. injection Hnew as <-.
  by apply start_pool_inv.
Qed.

End Pool_facts.

Section Pool_consequences.
Context {T E F : Type}.
Implicit Types (w : World T E F) (acts : list (Action T E F)) (i : Invocation F).

Lemma two_outstanding (s : Semaphore) (r1 r2 : Release) :
  wf s → r1 ≠ r2 → released s !! r1 = Some false → released s !! r2 = Some false →
  2 ≤ count s.
Proof.
  intros Hs Hne H1%elem_of_outstanding H2%elem_of_outstanding.
  assert (length [r1; r2] ≤ length (outstanding s))%nat as Hle.
  { apply submseteq_length, NoDup_submseteq.
    - repeat constructor; [by intros ->%list_elem_of_singleton | by intros ?%elem_of_nil].
    - intros x Hx. repeat (apply elem_of_cons in Hx as [->|Hx]); try done.
      by apply elem_of_nil in Hx. }
  pose proof (wf_tokens _ Hs). simpl in Hle. unfold Release in *. lia.
Qed.

Lemma omap_single {A B : Type} (g : A → option B) (l : list A) (k : nat) (x : A) (b : B) :
  l !! k = Some x → g x = Some b →
  (∀ k' y, l !! k' = Some y → k' ≠ k → g y = None) →
  omap g l = [b].
Proof.
  revert k. induction l as [|a l IH]; intros k Hk Hx Hnot; [done |].
  destruct k as [|k]; csimpl in *.
  - injection Hk as ->. rewrite Hx. f_equal.
    clear -Hnot. induction l as [|y l IH]; [done |]. csimpl.
    rewrite (Hnot 1%nat y) by done. apply IH.
    intros [|k'] z Hk' Hne; [done |]. apply (Hnot (S (S k')) z); [done | lia].
  - rewrite (Hnot 0%nat a) by done. apply (IH k Hk Hx).
    intros k' z Hk' Hne. apply (Hnot (S k') z); [done | lia].
Qed.

Lemma submit_each_sem (tasks : list F) w :
  wf (sem w) →
  let s' := sem (submit_each tasks w).2 in
  count s' = Z.min (capacity (sem w)) (count (sem w) + Z.of_nat (length tasks)) ∧
  queue s'
  = queue (sem w)
    ++ seq (futures (sem w))
         (length tasks - Z.to_nat (capacity (sem w) - count (sem w))) ∧
  released s'
  = released (sem w)
    ++ replicate (Z.to_nat (Z.min (capacity (sem w) - count (sem w))
                              (Z.of_nat (length tasks)))) false.
Proof.
  revert w. induction tasks as [|task tasks IH]; intros w Hs.
  { pose proof (wf_bounds _ Hs). simpl. rewrite !app_nil_r.
    replace (Z.to_nat (Z.min _ 0)) with 0%nat by lia. simpl. rewrite app_nil_r.
    split_and!; [lia | done | done]. }
  cbn [submit_each]. unfold submit. destruct (use_call task w) as [p w1] eqn:Hcall.
  assert (sem w1 = (acquire (sem w)).2) as Hsem.
  { unfold use_call in Hcall. destruct (acquire (sem w)). by injection Hcall as <- <-. }
  pose proof (acquire_wf _ Hs) as Hs1. rewrite <- Hsem in Hs1.
  specialize (IH w1 Hs1). destruct (submit_each tasks w1) as [ps w2].
  cbn [snd length] in *. cbv zeta in *.
  destruct IH as (Hc & Hq & Hr). rewrite Hc, Hq, Hr, Hsem. clear Hc Hq Hr.
  pose proof (wf_bounds _ Hs) as Hb. unfold acquire.
  set (n := length tasks). rewrite Nat2Z.inj_succ.
  destruct (Z.ltb_spec (count (sem w)) (capacity (sem w))) as [Hlt|Hge];
    cbn [snd capacity count queue released futures set_count set_released set_queue
           set_futures release future].
  - replace (Z.to_nat (capacity (sem w) - count (sem w)))
      with (S (Z.to_nat (capacity (sem w) - (count (sem w) + 1)))) by lia.
    replace (Z.to_nat (Z.min (capacity (sem w) - count (sem w)) (Z.succ (Z.of_nat n))))
      with (S (Z.to_nat (Z.min (capacity (sem w) - (count (sem w) + 1)) (Z.of_nat n))))
      by lia.
    cbn [replicate Nat.sub]. rewrite <- app_assoc.
    split_and!; [lia | done | done].
  - replace (Z.to_nat (capacity (sem w) - count (sem w))) with 0%nat by lia.
    replace (Z.to_nat (Z.min (capacity (sem w) - count (sem w)) (Z.succ (Z.of_nat n))))
      with 0%nat by lia.
    replace (Z.to_nat (Z.min (capacity (sem w) - count (sem w)) (Z.of_nat n)))
      with 0%nat by lia.
    rewrite !Nat.sub_0_r, <- app_assoc. cbn [replicate seq app]. rewrite !app_nil_r.
    split_and!; [lia | done | done].
Qed.

End Pool_consequences.

(** X5: a semaphore reached through [use] only (the one of a task pool) is
    idle once every invocation has ended, however the tasks ended: no token
    is outstanding, [tasks] is 0, all the permits are back and nobody is
    queued. *)
Theorem pool_idle_when_done {T E F : Type} (c : number) (s0 : Semaphore)
    (acts : list (Action T E F)) (w : World T E F) :
  Sem.new c = inr s0 → forallb through_use acts = true →
  run acts (start s0) = Some w →
  Forall finished (calls w) →
  outstanding (sem w) = [] ∧ tasks w = 0 ∧ permits (sem w) = to_Z c ∧
  queue (sem w) = [].
Proof.
  intros Hnew Hall Hrun Hfin.
  destruct (reach_pool_inv _ _ _ _ Hnew Hall Hrun) as [Hw Hhold (n & Hlen & Htok & Hwait)].
  pose proof (winv_sem _ Hw) as Hs.
  pose proof (reach_capacity _ _ _ _ Hnew Hrun) as Hcap.
  assert (outstanding (sem w) = []) as Hout.
  { destruct (outstanding (sem w)) as [|r l] eqn:Ho; [done |].
    assert (released (sem w) !! r = Some false) as Hr.
    { apply elem_of_outstanding. rewrite Ho. apply list_elem_of_here. }
    destruct (Hhold r Hr) as (k & i & Hk & _ & Hl).
    destruct (Forall_lookup_1 _ _ _ _ Hfin Hk) as [r' Hph]. by rewrite Hph in Hl. }
  pose proof (wf_tokens _ Hs) as Ht. rewrite Hout in Ht. simpl in Ht.
  unfold tasks, permits, used. split_and!; [done | done | lia |].
  destruct (queue (sem w)) as [|f q] eqn:Hq; [done |].
  destruct (Hwait 0%nat f eq_refl) as (i & Hi & Hph).
  destruct (Forall_lookup_1 _ _ _ _ Hfin Hi) as [r' Hph'].
  unfold waiting_for in Hph. congruence.
Qed.

Lemma pool_idle_when_done_witness :
  let acts : list (Action nat string nat) :=
    [Use 1; Use 2; Use 3; Resume 1; Resume 0; Settle 1 (Thrown "e"%string); Resume 2;
     Settle 0 (Returned 5); Settle 2 (Returned 6)]%nat in
  ∃ w, run acts (start (mkSemaphore 2 0 [] [] 0 [])) = Some w ∧
       tasks w = 0 ∧ queue (sem w) = [].
Proof.
  intros acts. eexists. split; [vm_compute; reflexivity |].
  destruct (pool_idle_when_done (of_Z 2) (mkSemaphore 2 0 [] [] 0 []) acts _ eq_refl
              eq_refl ltac:(vm_compute; reflexivity)) as (_ & Ht & _ & Hq).
  - repeat constructor; by eexists.
  - by split.
Defined.

(** X7: through [use] the permits are given in the order of the calls: an
    invocation has its token only if every invocation called before it has
    had one.  Those without a token are the queue, in its order. *)
Theorem tokens_in_call_order {T E F : Type} (c : number) (s0 : Semaphore)
    (acts : list (Action T E F)) (w : World T E F) :
  Sem.new c = inr s0 → forallb through_use acts = true →
  run acts (start s0) = Some w →
  (∀ k1 k2 i1 i2, (k1 < k2)%nat → calls w !! k1 = Some i1 → calls w !! k2 = Some i2 →
     has_token (sem w) i2 → has_token (sem w) i1) ∧
  phase <$> drop (length (calls w) - length (queue (sem w))) (calls w)
  = waiting_for <$> queue (sem w).
Proof.
  intros Hnew Hall Hrun.
  destruct (reach_pool_inv _ _ _ _ Hnew Hall Hrun) as [Hw Hhold (n & Hlen & Htok & Hwait)].
  pose proof (winv_sem _ Hw) as Hs. split.
  - intros k1 k2 i1 i2 Hlt H1 H2 [r Hr].
    destruct (decide (k2 < n)%nat) as [Hk2|Hk2]; [apply (Htok k1 i1 H1); lia |].
    destruct (pool_waiting w n k2 i2 Hs Hlen Hwait H2) as (f & _ & _ & Hnone); [lia |].
    congruence.
  - replace (length (calls w) - length (queue (sem w)))%nat with n by lia.
    apply list_eq. intros j. rewrite !list_lookup_fmap, lookup_drop.
    unfold Callback, Future in *.
    destruct (queue (sem w) !! j) as [f|] eqn:Hj.
    + destruct (Hwait j f Hj) as (i & Hi & Hph). unfold Callback, Future in *.
      rewrite Hi, Hj. simpl. by rewrite Hph.
    + unfold Callback, Future in *. rewrite Hj. simpl.
      apply lookup_ge_None in Hj. rewrite lookup_ge_None_2; [done | lia].
Qed.

Lemma tokens_in_call_order_witness :
  let acts : list (Action unit unit unit) :=
    [Use (); Use (); Use (); Use (); Resume 1; Settle 1 (Returned ())]%nat in
  ∃ w, run acts (start (mkSemaphore 2 0 [] [] 0 [])) = Some w ∧
       queue (sem w) = [1%nat] ∧
       phase <$> drop 3 (calls w) = [waiting_for 1%nat].
Proof.
  intros acts. eexists. split; [vm_compute; reflexivity |]. split; [reflexivity |].
  destruct (tokens_in_call_order (of_Z 2) (mkSemaphore 2 0 [] [] 0 []) acts _ eq_refl
              eq_refl ltac:(vm_compute; reflexivity)) as (_ & Hq).
  exact Hq.
Defined.

(** X8: [Mutex.use] runs the bodies one at a time and in the order of the
    calls.  On the semaphore of a mutex reached through [use] only, while an
    invocation is inside its body every invocation called before it has
    ended, and no other invocation can enter its body. *)
Theorem mutex_in_call_order {T E F : Type} (s0 : Semaphore)
    (acts : list (Action T E F)) (w : World T E F) (k : nat) (f : F) (r : Release) :
  Mutex_new = inr s0 → forallb through_use acts = true →
  run acts (start s0) = Some w →
  calls w !! k = Some (mkInvocation f (InBody r)) →
  (∀ k1 i1, (k1 < k)%nat → calls w !! k1 = Some i1 → finished i1) ∧
  (∀ k', k' ≠ k → step (Resume k') w = None) ∧
  inside w = [r].
Proof.
  intros Hnew Hall Hrun Hk. unfold Mutex_new in Hnew.
  destruct (reach_pool_inv _ _ _ _ Hnew Hall Hrun) as [Hw Hhold (n & Hlen & Htok & Hwait)].
  pose proof (winv_sem _ Hw) as Hs.
  pose proof (reach_capacity _ _ _ _ Hnew Hrun) as Hcap.
  assert (to_Z (of_Z 1) = 1) as Hone by reflexivity. rewrite Hone in Hcap.
  pose proof (wf_bounds _ Hs) as Hb.
  assert (released (sem w) !! r = Some false) as Hr.
  { eapply (winv_live _ Hw); [exact Hk | done | done]. }
  assert (∀ k' i' r', k' ≠ k → calls w !! k' = Some i' →
            token (sem w) (phase i') = Some r' → live (phase i') → False) as Halone.
  { intros k' i' r' Hne Hk' Ht' Hl'.
    assert (r' ≠ r) as Hrr.
    { intros ->. apply Hne. eapply (winv_own _ Hw); eauto. }
    pose proof (winv_live _ Hw _ _ _ Hk' Ht' Hl') as Hr'.
    pose proof (two_outstanding _ _ _ Hs Hrr Hr' Hr). lia. }
  split_and!.
  - intros k1 i1 Hlt H1.
    assert (k < n)%nat as Hkn.
    { destruct (decide (k < n)%nat); [done |].
      destruct (pool_waiting w n k _ Hs Hlen Hwait Hk) as (g & Hph & _); [lia |].
      discriminate. }
    destruct (Htok k1 i1 H1) as [r1 Hr1]; [lia |].
    destruct i1 as [f1 [p1|r1'|r1']]; [| | by eexists]; exfalso;
      (eapply (Halone k1 _ r1); [lia | exact H1 | exact Hr1 | exact I]).
  - intros k' Hne. unfold step, use_resume.
    destruct (calls w !! k') as [[f' [p|r'|r']]|] eqn:Hk'; try done.
    destruct (awaited (sem w) p) as [r'|] eqn:Hp; [| done].
    exfalso. eapply (Halone k' _ r'); [done | exact Hk' | exact Hp | exact I].
  - unfold inside.
    assert (∀ k' i', calls w !! k' = Some i' → k' ≠ k → body_token i' = None) as Hnot.
    { intros k' i' Hk' Hne. destruct (body_token i') as [r'|] eqn:Hb'; [| done].
      apply (body_token_token (sem w)) in Hb' as [Ht' Hl']. exfalso. eauto. }
    by eapply omap_single.
Qed.

Lemma mutex_in_call_order_witness :
  let acts : list (Action unit unit unit) :=
    [Use (); Use (); Use (); Resume 0; Settle 0 (Returned ()); Resume 1]%nat in
  ∃ w, run acts (start (mkSemaphore 1 0 [] [] 0 [])) = Some w ∧
       step (Resume 2%nat) w = None ∧ inside w = [1%nat].
Proof.
  intros acts. eexists. split; [vm_compute; reflexivity |].
  destruct (mutex_in_call_order (mkSemaphore 1 0 [] [] 0 []) acts _ 1%nat () 1%nat eq_refl
              eq_refl ltac:(vm_compute; reflexivity) eq_refl) as (_ & Hres & Hin).
  split; [by apply Hres | exact Hin].
Defined.

(** X9: [submitAll] starts as many tasks as there are free permits and
    queues the others in the order of the list.  After every run, with [n]
    tasks: [tasks] becomes the least of [concurrency] and [tasks + n], one
    token is made per started task, and the futures of the others are put
    at the end of the queue in increasing order. *)
Theorem submitAll_starts_and_queues {T E F : Type} (c : number) (s0 : Semaphore)
    (acts : list (Action T E F)) (w : World T E F) (todo : list F) :
  Sem.new c = inr s0 → run acts (start s0) = Some w →
  let w1 := (submitAll todo w).2 in
  let started := Z.to_nat (Z.min (permits (sem w)) (Z.of_nat (length todo))) in
  tasks w1 = Z.min (concurrency w) (tasks w + Z.of_nat (length todo)) ∧
  tasks w1 = tasks w + Z.of_nat started ∧
  queue (sem w1) = queue (sem w) ++ seq (futures (sem w)) (length todo - started) ∧
  released (sem w1) = released (sem w) ++ replicate started false.
Proof.
  intros Hnew Hrun w1 started. pose proof (reach_winv _ _ _ _ Hnew Hrun) as Hw.
  pose proof (winv_sem _ Hw) as Hs. pose proof (wf_bounds _ Hs) as Hb.
  destruct (submit_each_sem todo w Hs) as (Hc & Hq & Hr).
  unfold w1, started, submitAll, tasks, concurrency, used, permits in *.
  rewrite Hc, Hq, Hr. split_and!; [done | lia | | done].
  f_equal. f_equal. lia.
Qed.

Lemma submitAll_starts_and_queues_witness :
  let w : World unit unit nat := start (mkSemaphore 2 0 [] [] 0 []) in
  tasks (submitAll [1; 2; 3; 4; 5]%nat w).2 = 2 ∧
  queue (sem (submitAll [1; 2; 3; 4; 5]%nat w).2) = [0; 1; 2]%nat.
Proof.
  intros w.
  destruct (submitAll_starts_and_queues (of_Z 2) (mkSemaphore 2 0 [] [] 0 []) [] w
              [1; 2; 3; 4; 5]%nat eq_refl eq_refl) as (Ht & _ & Hq & _).
  split; [exact Ht | exact Hq].
Defined.

Section Pool_gauge.
Context {T E F : Type}.
Implicit Types (w : World T E F) (acts : list (Action T E F)) (i : Invocation F).

Lemma held_token (s : Semaphore) i (r : Release) :
  held s i = Some r ↔ token s (phase i) = Some r ∧ live (phase i).
Proof.
  unfold held. destruct (phase i); simpl.
  - split; [by intros ? | by intros [? _]].
  - split; [by intros ? | by intros [? _]].
  - split; [done | by intros [_ []]].
Qed.

(** An invocation that holds a token is inside its body or can resume. *)
Lemma holder_ready w (k : nat) i :
  calls w !! k = Some i → is_Some (held (sem w) i) →
  is_Some (step (Resume k) w) ∨ ∃ r, phase i = InBody r.
Proof.
  intros Hk [r Hr]. destruct i as [f [p|r'|r']]; unfold held in Hr; simpl in *.
  - left. unfold use_resume. rewrite Hk, Hr. by eexists.
  - right. by eexists.
  - done.
Qed.

(** The tokens held by the invocations are the outstanding ones. *)
Lemma holders_outstanding w :
  pool_inv w → omap (held (sem w)) (calls w) ≡ₚ outstanding (sem w).
Proof.
  intros [Hw Hhold _]. apply NoDup_Permutation.
  - apply NoDup_omap_lookup. intros k1 k2 i1 i2 r H1 H2 [Ht1 _]%held_token [Ht2 _]%held_token.
    eapply (winv_own _ Hw); eauto.
  - apply NoDup_unreleased_from.
  - intros r. rewrite list_elem_of_omap, elem_of_outstanding. split.
    + intros (i & [k Hk]%list_elem_of_lookup & [Ht Hl]%held_token).
      eapply (winv_live _ Hw); eauto.
    + intros (k & i & Hk & Ht & Hl)%Hhold. exists i. split.
      * by eapply list_elem_of_lookup_2.
      * by apply held_token.
Qed.

End Pool_gauge.

(** X10: on a semaphore reached through [use] only, [tasks] counts the
    invocations that hold a permit: those that were given their token (at
    the call or by a hand-off) and have not run [finally]. *)
Theorem pool_gauge_counts_holders {T E F : Type} (c : number) (s0 : Semaphore)
    (acts : list (Action T E F)) (w : World T E F) :
  Sem.new c = inr s0 → forallb through_use acts = true →
  run acts (start s0) = Some w →
  tasks w = Z.of_nat (length (omap (held (sem w)) (calls w))) ∧
  omap (held (sem w)) (calls w) ≡ₚ outstanding (sem w).
Proof.
  intros Hnew Hall Hrun.
  destruct (reach_pool_inv _ _ _ _ Hnew Hall Hrun) as [Hw Hhold _].
  pose proof (winv_sem _ Hw) as Hs.
  assert (omap (held (sem w)) (calls w) ≡ₚ outstanding (sem w)) as Hperm.
  { apply NoDup_Permutation.
    - apply NoDup_omap_lookup. intros k1 k2 i1 i2 r H1 H2 [Ht1 _]%held_token [Ht2 _]%held_token.
      eapply (winv_own _ Hw); eauto.
    - apply NoDup_unreleased_from.
    - intros r. rewrite list_elem_of_omap, elem_of_outstanding. split.
      + intros (i & [k Hk]%list_elem_of_lookup & [Ht Hl]%held_token).
        eapply (winv_live _ Hw); eauto.
      + intros (k & i & Hk & Ht & Hl)%Hhold. exists i. split.
        * by eapply list_elem_of_lookup_2.
        * by apply held_token. }
  split; [| done]. unfold tasks, used. rewrite (wf_tokens _ Hs). by rewrite Hperm.
Qed.

Lemma pool_gauge_counts_holders_witness :
  let acts : list (Action unit unit unit) :=
    [Use (); Use (); Use (); Resume 1; Settle 1 (Returned ())]%nat in
  ∃ w, run acts (start (mkSemaphore 2 0 [] [] 0 [])) = Some w ∧
       omap (held (sem w)) (calls w) = [0; 2]%nat ∧
       tasks w = Z.of_nat (length (omap (held (sem w)) (calls w))).
Proof.
  intros acts. eexists. split; [vm_compute; reflexivity |]. split; [reflexivity |].
  by destruct (pool_gauge_counts_holders (of_Z 2) (mkSemaphore 2 0 [] [] 0 []) acts _
                 eq_refl eq_refl ltac:(vm_compute; reflexivity)) as [Ht _].
Defined.

(** X6: a [use] waits for earlier invocations and for nothing else.  On a
    semaphore reached through [use] only, an invocation that has not ended
    can resume at once with its token, or is inside its body, or is queued;
    and while it is queued all the permits are held, each by an invocation
    that was called before it and that is inside its body or can resume at
    once.  Whether these bodies end is up to the program. *)
Theorem use_waits_for_earlier_holders {T E F : Type} (c : number) (s0 : Semaphore)
    (acts : list (Action T E F)) (w : World T E F) (k : nat) (i : Invocation F) :
  Sem.new c = inr s0 → forallb through_use acts = true →
  run acts (start s0) = Some w →
  calls w !! k = Some i → live (phase i) →
  (is_Some (step (Resume k) w) ∨ ∃ r, phase i = InBody r) ∨
  ((∃ f, phase i = waiting_for f ∧ f ∈ queue (sem w)) ∧
   step (Resume k) w = None ∧
   Z.of_nat (length (omap (held (sem w)) (calls w))) = to_Z c ∧
   ∀ k' i', calls w !! k' = Some i' → is_Some (held (sem w) i') →
     (k' < k)%nat ∧ (is_Some (step (Resume k') w) ∨ ∃ r, phase i' = InBody r)).
Proof.
  intros Hnew Hall Hrun Hk Hl.
  pose proof (reach_pool_inv _ _ _ _ Hnew Hall Hrun) as Hp.
  pose proof (holders_outstanding w Hp) as Hperm.
  pose proof (reach_capacity _ _ _ _ Hnew Hrun) as Hcap.
  destruct Hp as [Hw Hhold (n & Hlen & Htok & Hwait)].
  pose proof (winv_sem _ Hw) as Hs.
  destruct (decide (k < n)%nat) as [Hlt|Hge].
  - left. apply (holder_ready w k i Hk).
    destruct (Htok k i Hk Hlt) as [r Hr]. exists r. apply held_token. by split.
  - right.
    destruct (pool_waiting w n k i Hs Hlen Hwait Hk) as (f & Hph & Hf & Hnone); [lia |].
    split_and!.
    + exists f. split; [done |]. by eapply list_elem_of_lookup_2.
    + unfold step, use_resume. rewrite Hk. destruct i as [g ph]. simpl in *. subst ph.
      simpl in *. by rewrite Hnone.
    + rewrite Hperm, <- Hcap, <- (wf_tokens _ Hs). apply (wf_full _ Hs).
      intros Hq. rewrite Hq in Hf. by rewrite lookup_nil in Hf.
    + intros k' i' Hk' Hheld. split; [| by eapply holder_ready].
      destruct (decide (k' < n)%nat) as [?|Hge']; [lia |]. exfalso.
      destruct (pool_waiting w n k' i' Hs Hlen Hwait Hk') as (f' & _ & _ & Hnone');
        [lia |].
      destruct Hheld as [r [Ht _]%held_token]. by rewrite Hnone' in Ht.
Qed.

Lemma use_waits_for_earlier_holders_witness :
  let acts : list (Action unit unit unit) := [Use (); Use (); Use (); Resume 0%nat] in
  ∃ w, run acts (start (mkSemaphore 2 0 [] [] 0 [])) = Some w ∧
       step (Resume 2%nat) w = None ∧
       omap (held (sem w)) (calls w) = [0; 1]%nat ∧
       ∀ k' i', calls w !! k' = Some i' → is_Some (held (sem w) i') → (k' < 2)%nat.
Proof.
  intros acts. eexists. split; [vm_compute; reflexivity |].
  split; [reflexivity |]. split; [reflexivity |].
  destruct (use_waits_for_earlier_holders (of_Z 2) (mkSemaphore 2 0 [] [] 0 []) acts _
              2%nat (mkInvocation () (Acquiring (Deferred 0%nat)))
              eq_refl eq_refl ltac:(vm_compute; reflexivity) eq_refl I)
    as [[[w' Hw']|[r Hr]]|(_ & _ & _ & Hearlier)].
  - discriminate Hw'.
  - discriminate Hr.
  - intros k' i' Hk' Hheld. by destruct (Hearlier k' i' Hk' Hheld).
Defined.

Import Retry.

(** ** [withRetry] *)

Section Retry_facts.
Context {R E : Type}.
Implicit Types (attempt : nat → R + E) (wait : Wait) (tries : number).

Lemma retry_loop_success (k : nat) attempt tries wait (i fuel : nat) (last : option E) (v : R) :
  (∀ j, (j < k)%nat → ∃ e, attempt (i + j)%nat = inr e) →
  attempt (i + k)%nat = inl v →
  (∀ j, (j ≤ k)%nat → lt_nat (i + j) tries = true) →
  (k < fuel)%nat →
  retry_loop fuel attempt tries wait i last
  = Some (concat (failed_round wait <$> seq i k) ++ [Called (i + k)%nat], inl v).
Proof.
  revert i fuel last. induction k as [|k IH]; intros i fuel last Hfail Hok Hlt Hfuel;
    (destruct fuel as [|fuel]; [lia |]); simpl.
  - pose proof (Hlt 0%nat ltac:(lia)) as H0. rewrite Nat.add_0_r in H0, Hok |- *.
    by rewrite H0, Hok.
  - pose proof (Hlt 0%nat ltac:(lia)) as H0. rewrite Nat.add_0_r in H0. rewrite H0.
    destruct (Hfail 0%nat ltac:(lia)) as [e He]. rewrite Nat.add_0_r in He. rewrite He.
    rewrite (IH (S i) fuel (Some e)); [| | | | lia].
    + by replace (S i + k)%nat with (i + S k)%nat by lia.
    + intros j Hj. destruct (Hfail (S j) ltac:(lia)) as [e' He'].
      exists e'. by replace (S i + j)%nat with (i + S j)%nat by lia.
    + by replace (S i + k)%nat with (i + S k)%nat by lia.
    + intros j Hj. replace (S i + j)%nat with (i + S j)%nat by lia. apply Hlt. lia.
Qed.

Lemma retry_loop_exhausted (n : nat) attempt tries wait (i fuel : nat) (last : option E) :
  (∀ j, (j < n)%nat → ∃ e, attempt (i + j)%nat = inr e) →
  (∀ j, (j < n)%nat → lt_nat (i + j) tries = true) →
  lt_nat (i + n) tries = false →
  (n < fuel)%nat →
  retry_loop fuel attempt tries wait i last
  = Some (concat (failed_round wait <$> seq i n),
          inr (mkRetryError tries
                 (match n with
                  | O => last
                  | S m => match attempt (i + m)%nat with
                           | inr e => Some e
                           | inl _ => None
                           end
                  end))).
Proof.
  revert i fuel last. induction n as [|n IH]; intros i fuel last Hfail Hlt Hend Hfuel;
    (destruct fuel as [|fuel]; [lia |]); simpl.
  - rewrite Nat.add_0_r in Hend. by rewrite Hend.
  - pose proof (Hlt 0%nat ltac:(lia)) as H0. rewrite Nat.add_0_r in H0. rewrite H0.
    destruct (Hfail 0%nat ltac:(lia)) as [e He]. rewrite Nat.add_0_r in He. rewrite He.
    rewrite (IH (S i) fuel (Some e)); [| | | | lia].
    + do 3 f_equal. destruct n as [|m]; [by rewrite Nat.add_0_r, He |].
      by replace (S i + m)%nat with (i + S m)%nat by lia.
    + intros j Hj. destruct (Hfail (S j) ltac:(lia)) as [e' He'].
      exists e'. by replace (S i + j)%nat with (i + S j)%nat by lia.
    + intros j Hj. replace (S i + j)%nat with (i + S j)%nat by lia. apply Hlt. lia.
    + by replace (S i + n)%nat with (i + S n)%nat by lia.
Qed.

End Retry_facts.

(** X12: [withRetry] returns the first success and stops there.  When the
    first [k] calls of [fn] throw and call [k] returns [v], with [k < tries],
    the wrapped function returns [v]; it has called [fn] [k + 1] times and
    slept [wait(j)] after each failed call [j], and nothing comes after the
    successful call. *)
Theorem withRetry_first_success {R E : Type} (attempt : nat → R + E) (tries : number)
    (wait : option Wait) (k fuel : nat) (v : R) :
  (∀ j, (j < k)%nat → ∃ e, attempt j = inr e) →
  attempt k = inl v →
  lt_nat k tries = true →
  (k < fuel)%nat →
  withRetry attempt tries wait fuel
  = Some (concat (failed_round (default (expBackoff MINIMUM_RETRY_WAIT_TIME) wait)
                    <$> seq 0 k) ++ [Called k],
          inl v).
Proof.
  intros Hfail Hok Hlt Hfuel. unfold withRetry.
  rewrite (retry_loop_success k _ _ _ 0 fuel None v); try done.
  intros j Hj. simpl.
  destruct tries as [q| | |]; simpl in *; try done.
  apply Z.ltb_lt in Hlt. apply Z.ltb_lt. nia.
Qed.

Lemma withRetry_first_success_witness :
  let attempt : nat → nat + string :=
    λ i, if (i <? 2)%nat then inr "down"%string else inl 7%nat in
  withRetry attempt (of_Z 5) (Some (λ _, of_Z 10)) 3
  = Some ([Called 0; Slept (of_Z 10); Called 1; Slept (of_Z 10); Called 2], inl 7%nat).
Proof.
  intros attempt.
  rewrite (withRetry_first_success attempt (of_Z 5) (Some (λ _, of_Z 10)) 2 3 7%nat);
    [reflexivity | | reflexivity | reflexivity | lia].
  intros j Hj. exists "down"%string. unfold attempt.
  by destruct j as [|[|j]]; [| | lia].
Defined.

(** X13: [withRetry] gives up after [n] failed calls, where [n] is the number
    of rounds [tries] allows (the first natural number that is not below
    [tries]; 0 when [tries] is zero, negative or [NaN]).  It has then called
    [fn] exactly [n] times, slept after every failed call, the last one
    included, and throws a [RetryError] holding [tries] and the error of the
    last call; with [n = 0], [fn] is never called and the error held is
    [undefined]. *)
Theorem withRetry_exhausted {R E : Type} (attempt : nat → R + E) (tries : number)
    (wait : option Wait) (n fuel : nat) :
  (∀ j, (j < n)%nat → ∃ e, attempt j = inr e) →
  (∀ j, (j < n)%nat → lt_nat j tries = true) →
  lt_nat n tries = false →
  (n < fuel)%nat →
  withRetry attempt tries wait fuel
  = Some (concat (failed_round (default (expBackoff MINIMUM_RETRY_WAIT_TIME) wait)
                    <$> seq 0 n),
          inr (mkRetryError tries
                 (match n with
                  | O => None
                  | S m => match attempt m with
                           | inr e => Some e
                           | inl _ => None
                           end
                  end))).
Proof.
  intros Hfail Hlt Hend Hfuel. unfold withRetry.
  by rewrite (retry_loop_exhausted n _ _ _ 0 fuel None).
Qed.

Lemma withRetry_exhausted_witness :
  let attempt : nat → nat + nat := λ i, inr (100 + i)%nat in
  withRetry attempt (Finite (5 # 2)) None 4
  = Some ([Called 0; Slept (expBackoff MINIMUM_RETRY_WAIT_TIME 0%nat);
           Called 1; Slept (expBackoff MINIMUM_RETRY_WAIT_TIME 1%nat);
           Called 2; Slept (expBackoff MINIMUM_RETRY_WAIT_TIME 2%nat)],
          inr (mkRetryError (Finite (5 # 2)) (Some 102%nat))) ∧
  withRetry attempt NaN None 1 = Some ([], inr (mkRetryError NaN None)).
Proof.
  intros attempt. split.
  - rewrite (withRetry_exhausted attempt (Finite (5 # 2)) None 3 4);
      [reflexivity | | | reflexivity | lia].
    + intros j _. by eexists.
    + intros j Hj. by destruct j as [|[|[|j]]]; [| | | lia].
  - rewrite (withRetry_exhausted attempt NaN None 0 1);
      [reflexivity | | | reflexivity | lia]; intros j Hj; lia.
Defined.

(** ** [expBackoff] *)

Section Backoff_facts.




End Backoff_facts.



Import Timeout Lift.

(** ** [withTimeout] *)

Section Timeout_facts.
Context {R E : Type}.
Implicit Types (st : State R E) (evs : list (Event R E)).

Lemma after_settled evs st st' (o : R + Failure E) :
  promise st = Some o → after evs st = Some st' → promise st' = Some o.
Proof.
  revert st. induction evs as [|ev evs IH]; intros st Ho; simpl.
  - by intros [= <-].
  - destruct (react ev st) as [st1|] eqn:Hr; [| done]. apply IH.
    destruct ev; simpl in Hr; [destruct (timer st); [| done] | |];
      injection Hr as <-; unfold settle, clearTimeout; simpl; by rewrite Ho.
Qed.

Lemma after_cleared evs st st' :
  timer st = false → after evs st = Some st' → (TimerFires ∉ evs) ∧ timer st' = false.
Proof.
  revert st. induction evs as [|ev evs IH]; intros st Ht; simpl.
  - intros [= <-]. split; [by intros ?%elem_of_nil | done].
  - destruct (react ev st) as [st1|] eqn:Hr; [| done]. intros Hafter.
    assert (timer st1 = false) as Ht1.
    { destruct ev; simpl in Hr; [by rewrite Ht in Hr | |];
        injection Hr as <-; unfold settle, clearTimeout; simpl;
        by destruct (promise st). }
    destruct (IH st1 Ht1 Hafter) as [Hno Hc]. split; [| done].
    intros [Heq|?]%elem_of_cons; [| done]. subst ev. simpl in Hr. by rewrite Ht in Hr.
Qed.

End Timeout_facts.

(** X15: the promise of [withTimeout] settles with what happens first and
    never changes: a [TimeoutError] if the timer fires first, the value or
    the error of [asyncFn], as it is, if its promise settles first.  Once the
    promise of [asyncFn] has settled the timer is cleared and does not fire.
    If [asyncFn] throws instead of returning a promise, the result is
    rejected with what it threw and the timer is left set. *)
Theorem withTimeout_first_wins {R E : Type} (ev : Event R E) (evs : list (Event R E))
    (st : State R E) :
  after (ev :: evs) (start None) = Some st →
  promise st = Some (outcome ev) ∧ timer st = false ∧ (TimerFires ∉ evs) ∧
  (∀ (e : E) (evs' : list (Event R E)) (st' : State R E),
     after evs' (start (Some e)) = Some st' →
     promise st' = Some (inr (Raised e)) ∧ timer (start (R:=R) (Some e)) = true).
Proof.
  simpl. intros Hafter.
  assert (∃ st1, react ev (start None) = Some st1 ∧ after evs st1 = Some st ∧
                 promise st1 = Some (outcome ev) ∧ timer st1 = false)
    as (st1 & Hr & Hrest & Ho & Ht).
  { destruct ev; simpl in *;
      (eexists; split; [reflexivity |]; split; [exact Hafter |]; split; reflexivity). }
  destruct (after_cleared _ _ _ Ht Hrest) as [Hno Hc].
  split_and!; [by eapply after_settled | done | done |].
  intros e evs' st' Hafter'. split; [| done].
  eapply after_settled; [| exact Hafter']. reflexivity.
Qed.

Lemma withTimeout_first_wins_witness :
  ∃ st : State nat string,
    after [Passes 3%nat; Fails "late"%string] (start None) = Some st ∧
    promise st = Some (inl 3%nat) ∧
    after [Passes 3%nat; TimerFires] (start (R:=nat) (E:=string) None) = None.
Proof.
  eexists. split; [reflexivity |]. split; [| reflexivity].
  by destruct (withTimeout_first_wins (Passes 3%nat) [Fails "late"%string] _ eq_refl)
    as (Ho & _).
Defined.

(** ** [lift] *)

Section Lift_facts.
Context {T E R : Type}.
Implicit Types (args : list nat) (before later log : list (nat * Outcome T E)).







End Lift_facts.


